(** * GoHPC: worker pool executor, work splitting and job registry

    A shallow embedding of the Go sources of [qcserestipy/gohpc]:

    - [pkg/workerpool/pool.go]: the context-aware executor ([Module Pool]),
      as a labelled transition system over the goroutines of one [Run] call;
    - the draft executor without a context ([Module Draft]);
    - the draft executor that reports incomplete results ([Module Early]);
    - the work splitting of the compute server and of the CLI examples
      ([Module Split]);
    - the task ranges and the factorial table of the series example
      ([Module Chudnovsky]);
    - [pkg/serve/job.go]: the compute server and its handler
      ([Module Serve]) and the job registry ([Module Registry]).

    Go's [int] is modelled as [Z]; no operation below leaves the 64-bit range
    on inputs that are in it.  Slices are lists, channels are queues with a
    closed flag, and an unbuffered hand-off is one joint step of the sender
    and the receiver. *)

From Stdlib Require Import ZArith Lia String.
From stdpp Require Import base list gmap strings.

(* ===================================================================== *)
(** ** Facts about lists used by all models                               *)
(* ===================================================================== *)

Lemma elem_of_insert_inv {A} (l : list A) (i : nat) (x y : A) :
  x ∈ <[i := y]> l → x = y ∨ x ∈ l.
Proof.
  revert i. induction l as [|a l IH]; intros [|i]; simpl;
    rewrite ?elem_of_cons; auto.
  - intros [->|?]; auto.
  - intros [->|[->|?]%IH]; auto.
Qed.

Lemma forallb_false_lookup {A} (f : A → bool) (l : list A) :
  forallb f l = false → ∃ i x, l !! i = Some x ∧ f x = false.
Proof.
  induction l as [|a l IH]; simpl; [done|].
  destruct (f a) eqn:E; simpl.
  - intros (i & x & ? & ?)%IH. by exists (S i), x.
  - intros _. by exists 0, a.
Qed.

Lemma seq_submseteq (n m : nat) : n ≤ m → seq 0 n ⊆+ seq 0 m.
Proof.
  intros Hnm. replace m with (n + (m - n)) by lia.
  rewrite seq_app. by apply submseteq_inserts_r.
Qed.


(* ===================================================================== *)
(** ** Work splitting (cmd/example/multi_node, cmd/example/monte-carlo)   *)
(* ===================================================================== *)

Module Split.

Local Open Scope Z_scope.

(** [type Task struct{ Count int }] *)
Record Task := mkTask { Count : Z }.

(** [extra := 0; if j < rem { extra = 1 }] *)
Definition extra (j rem : Z) : Z := if j <? rem then 1 else 0.

(** The splitter passed to [HandleCompute] in multi_node/main.go:
<<
  base := req.Total / nWorkers
  rem := req.Total % nWorkers
  tasks := make([]Task, nWorkers)
  for j := 0; j < nWorkers; j++ { ...; tasks[j] = Task{Count: base + extra} }
>>
    Go's [/] and [%] truncate towards zero ([Z.quot], [Z.rem]).  A zero
    divisor and a negative length for [make] both panic: [None]. *)
Definition splitter (Total nWorkers : Z) : option (list Task) :=
  if nWorkers =? 0 then None
  else
    let base := Z.quot Total nWorkers in
    let rem := Z.rem Total nWorkers in
    if nWorkers <? 0 then None
    else Some ((fun j => mkTask (base + extra j rem)) <$> seqZ 0 nWorkers).

(** The loop of monte-carlo/main.go (and single_node/main.go), which also
    accumulates [totalAllocated]:
<<
  tasks := make([]Task, numWorkers)
  chunk := nTests / numWorkers
  remainder := nTests % numWorkers
  var totalAllocated int
  for i := range tasks {
    extraPoints := 0
    if i < remainder { extraPoints = 1 }
    tasks[i] = Task{Count: chunk + extraPoints}
    totalAllocated += tasks[i].Count
  }
>>
    The loop state is the slice and the counter; [make] gives zero tasks. *)
Definition distribute_body (chunk remainder : Z)
    (st : list Task * Z) (i : nat) : list Task * Z :=
  let t := mkTask (chunk + extra (Z.of_nat i) remainder) in
  let tasks := <[i := t]> st.1 in
  (tasks, st.2 + from_option Count 0 (tasks !! i)).

Definition distribute (nTests numWorkers : Z) : option (list Task * Z) :=
  if numWorkers <? 0 then None
  else
    let tasks := replicate (Z.to_nat numWorkers) (mkTask 0) in
    if numWorkers =? 0 then None
    else
      let chunk := Z.quot nTests numWorkers in
      let remainder := Z.rem nTests numWorkers in
      Some (foldl (distribute_body chunk remainder) (tasks, 0)
                  (seq 0 (length tasks))).

(** Sum of the [Count] fields. *)
Definition total_count (ts : list Task) : Z :=
  foldr (fun t acc => Count t + acc) 0 ts.

(** *** Properties of the splitting *)

Lemma total_count_app (l1 l2 : list Task) :
  total_count (l1 ++ l2) = total_count l1 + total_count l2.
Proof.
  unfold total_count. induction l1 as [|t l1 IH]; simpl; [lia|].
  rewrite IH. lia.
Qed.

(** The first [k] tasks hold [k * base] units plus one extra unit for each
    index below [rem]. *)
Lemma total_count_prefix (base rem : Z) (k : nat) :
  0 ≤ rem →
  total_count ((fun j => mkTask (base + extra j rem)) <$> seqZ 0 (Z.of_nat k))
  = Z.of_nat k * base + Z.min (Z.of_nat k) rem.
Proof.
  intros Hrem. induction k as [|k IH].
  - rewrite seqZ_nil by lia. simpl. lia.
  - rewrite seqZ_S, fmap_app, total_count_app, IH. simpl.
    unfold extra. destruct (Z.ltb_spec (0 + Z.of_nat k) rem); lia.
Qed.

Lemma splitter_lookup (base rem n : Z) (j : nat) :
  Z.of_nat j < n →
  ((fun j => mkTask (base + extra j rem)) <$> seqZ 0 n) !! j
  = Some (mkTask (base + extra (Z.of_nat j) rem)).
Proof.
  intros Hj. rewrite list_lookup_fmap, lookup_seqZ_lt by lia. done.
Qed.

(** The loop of [distribute] after [k] iterations: the first [k] slots are
    written, the others still hold the zero task, and the counter is the sum
    of what was written. *)
Lemma distribute_loop (chunk remainder : Z) (n k : nat) :
  (k ≤ n)%nat →
  foldl (distribute_body chunk remainder)
        (replicate n (mkTask 0), 0) (seq 0 k)
  = (((fun j => mkTask (chunk + extra j remainder)) <$> seqZ 0 (Z.of_nat k))
       ++ replicate (n - k) (mkTask 0),
     total_count
       ((fun j => mkTask (chunk + extra j remainder)) <$> seqZ 0 (Z.of_nat k))).
Proof.
  induction k as [|k IH]; intros Hk.
  - simpl. by rewrite Nat.sub_0_r.
  - rewrite seq_S, foldl_app, IH by lia. simpl.
    unfold distribute_body; simpl.
    set (f := fun j => mkTask (chunk + extra j remainder)).
    assert (Hlen : length (f <$> seqZ 0 (Z.of_nat k)) = k)
      by (rewrite length_fmap, length_seqZ; lia).
    replace (n - k)%nat with (S (n - S k)) by lia. simpl.
    assert (Hins : <[k := f (Z.of_nat k)]>
              ((f <$> seqZ 0 (Z.of_nat k)) ++ mkTask 0 :: replicate (n - S k) (mkTask 0))
            = (f <$> seqZ 0 (Z.of_nat (S k))) ++ replicate (n - S k) (mkTask 0)).
    { rewrite insert_app_r_alt by lia. rewrite Hlen, Nat.sub_diag. simpl.
      rewrite seqZ_S, fmap_app, <- app_assoc. done. }
    change (mkTask (chunk + extra (Z.of_nat k) remainder)) with (f (Z.of_nat k)).
    rewrite Hins. f_equal.
    rewrite lookup_app_l by (rewrite length_fmap, length_seqZ; lia).
    rewrite list_lookup_fmap, lookup_seqZ_lt by lia. simpl.
    rewrite seqZ_S, fmap_app, total_count_app. simpl. lia.
Qed.

(** C9.  For a total [>= 0] and [n >= 1] workers, the splitter of the compute
    server and the loop of the CLI examples produce the same [n] tasks; task
    [j] gets [total / n] units plus one if [j < total mod n]; the counts are
    non-negative and at most the total (so nothing leaves the range of
    [int]), sum to the total (which is also the [totalAllocated] the CLI
    computes) and differ pairwise by at most one. *)
Theorem split_even (total n : Z) :
  0 ≤ total → 1 ≤ n →
  ∃ tasks : list Task,
    splitter total n = Some tasks
    ∧ distribute total n = Some (tasks, total)
    ∧ length tasks = Z.to_nat n
    ∧ (∀ j : nat, Z.of_nat j < n →
         tasks !! j = Some (mkTask (total `div` n
                                    + (if Z.of_nat j <? total `mod` n then 1 else 0))))
    ∧ Forall (fun t => 0 ≤ Count t ≤ total) tasks
    ∧ total_count tasks = total
    ∧ (∀ t1 t2, t1 ∈ tasks → t2 ∈ tasks → -1 ≤ Count t1 - Count t2 ≤ 1).
Proof.
  intros Htot Hn.
  set (f := fun j => mkTask (Z.quot total n + extra j (Z.rem total n))).
  assert (Hq : Z.quot total n = total `div` n) by (apply Z.quot_div_nonneg; lia).
  assert (Hr : Z.rem total n = total `mod` n) by (apply Z.rem_mod_nonneg; lia).
  assert (Hmod : 0 ≤ total `mod` n < n) by (apply Z.mod_pos_bound; lia).
  assert (Hdiv : 0 ≤ total `div` n) by (apply Z.div_pos; lia).
  assert (Hsum : total_count (f <$> seqZ 0 n) = total).
  { pose proof (total_count_prefix (Z.quot total n) (Z.rem total n) (Z.to_nat n))
      as Hp.
    rewrite Z2Nat.id in Hp by lia. unfold f. rewrite Hp by lia.
    rewrite Hq, Hr, Z.min_r by lia.
    pose proof (Z.div_mod total n). lia. }
  exists (f <$> seqZ 0 n). repeat split.
  - unfold splitter.
    destruct (Z.eqb_spec n 0); [lia|]. destruct (Z.ltb_spec n 0); [lia|]. done.
  - unfold distribute.
    destruct (Z.ltb_spec n 0); [lia|]. destruct (Z.eqb_spec n 0); [lia|].
    rewrite length_replicate, distribute_loop by lia.
    rewrite Nat.sub_diag, app_nil_r, Z2Nat.id by lia. simpl.
    fold f. by rewrite Hsum.
  - rewrite length_fmap, length_seqZ. done.
  - intros j Hj. unfold f. rewrite splitter_lookup by lia.
    unfold extra. by rewrite Hq, Hr.
  - apply Forall_fmap, Forall_seqZ. intros j Hj. simpl.
    unfold extra. rewrite Hq, Hr. pose proof (Z.div_mod total n).
    destruct (Z.ltb_spec j (total `mod` n)); nia.
  - done.
  - apply list_elem_of_fmap in H as (j1 & -> & _).
    apply list_elem_of_fmap in H0 as (j2 & -> & _).
    simpl. unfold extra.
    destruct (j1 <? Z.rem total n), (j2 <? Z.rem total n); lia.
  - apply list_elem_of_fmap in H as (j1 & -> & _).
    apply list_elem_of_fmap in H0 as (j2 & -> & _).
    simpl. unfold extra.
    destruct (j1 <? Z.rem total n), (j2 <? Z.rem total n); lia.
Qed.

(** Ten units over four workers: 3, 3, 2, 2. *)
Lemma split_even_witness :
  ∃ tasks : list Task,
    splitter 10 4 = Some tasks
    ∧ distribute 10 4 = Some (tasks, 10)
    ∧ length tasks = Z.to_nat 4
    ∧ (∀ j : nat, Z.of_nat j < 4 →
         tasks !! j = Some (mkTask (10 `div` 4
                                    + (if Z.of_nat j <? 10 `mod` 4 then 1 else 0))))
    ∧ Forall (fun t => 0 ≤ Count t ≤ 10) tasks
    ∧ total_count tasks = 10
    ∧ (∀ t1 t2, t1 ∈ tasks → t2 ∈ tasks → -1 ≤ Count t1 - Count t2 ≤ 1).
Proof. apply (split_even 10 4); lia. Defined.

(** *** Negative totals, and the split over the nodes *)

Lemma total_count_no_extra (base rem : Z) (k : nat) :
  rem ≤ 0 →
  total_count ((fun j => mkTask (base + extra j rem)) <$> seqZ 0 (Z.of_nat k))
  = Z.of_nat k * base.
Proof.
  intros Hrem. induction k as [|k IH].
  - rewrite seqZ_nil by lia. simpl. lia.
  - rewrite seqZ_S, fmap_app, total_count_app, IH. simpl.
    unfold extra. destruct (Z.ltb_spec (0 + Z.of_nat k) rem); lia.
Qed.

(** With a negative total no task gets the extra unit: each of the [n]
    tasks gets [total quot n], which is not positive (so the workers' loops
    do nothing), and the counts sum to the total less the remainder, that
    is to the total only when [n] divides it. *)
Theorem split_negative (total n : Z) :
  total < 0 → 1 ≤ n →
  ∃ tasks : list Task,
    splitter total n = Some tasks
    ∧ length tasks = Z.to_nat n
    ∧ Forall (fun t => Count t = Z.quot total n ∧ Count t ≤ 0) tasks
    ∧ total_count tasks = total - Z.rem total n
    ∧ (total_count tasks = total ↔ Z.rem total n = 0).
Proof.
  intros Htot Hn.
  set (f := fun j => mkTask (Z.quot total n + extra j (Z.rem total n))).
  assert (Hrem : Z.rem total n ≤ 0) by (apply Z.rem_nonpos; lia).
  assert (Hquot : Z.quot total n ≤ 0).
  { rewrite <- (Z.opp_involutive total), Z.quot_opp_l by lia.
    pose proof (Z.quot_pos (- total) n). lia. }
  assert (Hsum : total_count (f <$> seqZ 0 n) = total - Z.rem total n).
  { pose proof (total_count_no_extra (Z.quot total n) (Z.rem total n)
                  (Z.to_nat n) Hrem) as Hp.
    rewrite Z2Nat.id in Hp by lia. unfold f. rewrite Hp.
    pose proof (Z.quot_rem' total n). lia. }
  exists (f <$> seqZ 0 n). split; [|split; [|split; [|split]]].
  - unfold splitter.
    destruct (Z.eqb_spec n 0); [lia|]. destruct (Z.ltb_spec n 0); [lia|]. done.
  - by rewrite length_fmap, length_seqZ.
  - apply Forall_fmap, Forall_seqZ. intros j Hj. simpl.
    unfold extra. destruct (Z.ltb_spec j (Z.rem total n)); lia.
  - done.
  - rewrite Hsum. lia.
Qed.

Lemma split_negative_witness :
  ∃ tasks : list Task,
    splitter (-7) 4 = Some tasks
    ∧ length tasks = Z.to_nat 4
    ∧ Forall (fun t => Count t = Z.quot (-7) 4 ∧ Count t ≤ 0) tasks
    ∧ total_count tasks = -7 - Z.rem (-7) 4
    ∧ (total_count tasks = -7 ↔ Z.rem (-7) 4 = 0).
Proof. apply (split_negative (-7) 4); lia. Defined.

(** The share of node [node] in multi_node/main.go:
<<
  base := totalPoints / nServers
  rem := totalPoints % nServers
  nodeTotal := base
  if node < rem { nodeTotal++ }
>> *)
Definition nodeTotal (totalPoints nServers node : Z) : Z :=
  let base := Z.quot totalPoints nServers in
  let rem := Z.rem totalPoints nServers in
  if node <? rem then base + 1 else base.

(** The tasks of the whole cluster: each node's share, split by that
    node's server over its workers. *)
Definition cluster_tasks (totalPoints nServers nWorkers : Z)
    : list (option (list Task)) :=
  (fun node => splitter (nodeTotal totalPoints nServers node) nWorkers)
    <$> seqZ 0 nServers.

Lemma splitter_sum (total n : Z) :
  0 ≤ total → 1 ≤ n →
  ∃ tasks, splitter total n = Some tasks
           ∧ length tasks = Z.to_nat n ∧ total_count tasks = total.
Proof.
  intros Htot Hn. unfold splitter.
  destruct (Z.eqb_spec n 0); [lia|]. destruct (Z.ltb_spec n 0); [lia|].
  eexists. split; [done|]. split; [by rewrite length_fmap, length_seqZ|].
  pose proof (total_count_prefix (Z.quot total n) (Z.rem total n) (Z.to_nat n))
    as Hp.
  rewrite Z2Nat.id in Hp by lia. rewrite Hp.
  - rewrite Z.quot_div_nonneg, Z.rem_mod_nonneg by lia.
    pose proof (Z.mod_pos_bound total n). pose proof (Z.div_mod total n). lia.
  - rewrite Z.rem_mod_nonneg by lia. pose proof (Z.mod_pos_bound total n). lia.
Qed.

Lemma nodeTotal_extra (totalPoints nServers node : Z) :
  nodeTotal totalPoints nServers node
  = Z.quot totalPoints nServers + extra node (Z.rem totalPoints nServers).
Proof. unfold nodeTotal, extra. case_match; lia. Qed.

(** Sum of the counts of the nodes that got tasks. *)
Definition cluster_count (c : list (option (list Task))) : Z :=
  foldr (fun o acc => from_option total_count 0 o + acc) 0 c.

Lemma cluster_count_nodes (totalPoints nServers nWorkers : Z) (k : nat) :
  0 ≤ totalPoints → 1 ≤ nServers → 1 ≤ nWorkers →
  Forall (fun o => is_Some o)
    ((fun node => splitter (nodeTotal totalPoints nServers node) nWorkers)
       <$> seqZ 0 (Z.of_nat k))
  ∧ cluster_count
      ((fun node => splitter (nodeTotal totalPoints nServers node) nWorkers)
         <$> seqZ 0 (Z.of_nat k))
    = total_count
        ((fun j => mkTask (Z.quot totalPoints nServers
                           + extra j (Z.rem totalPoints nServers)))
           <$> seqZ 0 (Z.of_nat k)).
Proof.
  intros Htot Hs Hw. induction k as [|k [IH1 IH2]].
  - rewrite seqZ_nil by lia. done.
  - rewrite seqZ_S, !fmap_app, Z.add_0_l. simpl.
    assert (0 ≤ nodeTotal totalPoints nServers (Z.of_nat k)) as Hnt.
    { rewrite nodeTotal_extra, Z.quot_div_nonneg by lia.
      pose proof (Z.div_pos totalPoints nServers). unfold extra.
      case_match; lia. }
    destruct (splitter_sum _ nWorkers Hnt Hw) as (tasks & Ht & _ & Hsum).
    split.
    + apply Forall_app. split; [done|]. apply Forall_singleton.
      rewrite Ht. by eexists.
    + rewrite total_count_app. simpl. rewrite <- IH2.
      assert (∀ l1 l2, cluster_count (l1 ++ l2)
                       = cluster_count l1 + cluster_count l2) as Happ.
      { intros l1 l2. unfold cluster_count.
        induction l1 as [|a l1 IHl]; simpl; [lia|]. rewrite IHl. lia. }
      rewrite Happ. simpl. rewrite Ht. simpl.
      rewrite Hsum, nodeTotal_extra. lia.
Qed.

(** The two-level split of multi_node/main.go loses nothing: every node
    gets tasks, one per worker, and the counts of all tasks of all nodes
    sum to the requested number of points. *)
Theorem cluster_split (totalPoints nServers nWorkers : Z) :
  0 ≤ totalPoints → 1 ≤ nServers → 1 ≤ nWorkers →
  length (cluster_tasks totalPoints nServers nWorkers) = Z.to_nat nServers
  ∧ Forall (fun o => ∃ tasks, o = Some tasks
                              ∧ length tasks = Z.to_nat nWorkers)
      (cluster_tasks totalPoints nServers nWorkers)
  ∧ cluster_count (cluster_tasks totalPoints nServers nWorkers) = totalPoints.
Proof.
  intros Htot Hs Hw. unfold cluster_tasks. split; [|split].
  - by rewrite length_fmap, length_seqZ.
  - apply Forall_fmap, Forall_seqZ. intros node Hnode. simpl.
    assert (0 ≤ nodeTotal totalPoints nServers node) as Hnt.
    { rewrite nodeTotal_extra, Z.quot_div_nonneg by lia.
      pose proof (Z.div_pos totalPoints nServers). unfold extra.
      case_match; lia. }
    destruct (splitter_sum _ nWorkers Hnt Hw) as (tasks & Ht & Hlen & _).
    eauto.
  - pose proof (cluster_count_nodes totalPoints nServers nWorkers
                  (Z.to_nat nServers) Htot Hs Hw) as [_ Hc].
    rewrite Z2Nat.id in Hc by lia. rewrite Hc.
    pose proof (total_count_prefix (Z.quot totalPoints nServers)
                  (Z.rem totalPoints nServers) (Z.to_nat nServers)) as Hp.
    rewrite Z2Nat.id in Hp by lia. rewrite Hp.
    + rewrite Z.quot_div_nonneg, Z.rem_mod_nonneg by lia.
      pose proof (Z.mod_pos_bound totalPoints nServers).
      pose proof (Z.div_mod totalPoints nServers). lia.
    + rewrite Z.rem_mod_nonneg by lia.
      pose proof (Z.mod_pos_bound totalPoints nServers). lia.
Qed.

Lemma cluster_split_witness :
  length (cluster_tasks 11 2 4) = Z.to_nat 2
  ∧ Forall (fun o => ∃ tasks, o = Some tasks ∧ length tasks = Z.to_nat 4)
      (cluster_tasks 11 2 4)
  ∧ cluster_count (cluster_tasks 11 2 4) = 11.
Proof. apply (cluster_split 11 2 4); lia. Defined.

End Split.

(* ===================================================================== *)
(** ** The context-aware executor (pkg/workerpool/pool.go)                *)
(* ===================================================================== *)

Module Pool.

(** *** Configuration *)

(** [type PoolOptions struct { NumWorkers int }] *)
Record PoolOptions := mkOpts { NumWorkers : Z }.

(** [PoolOptionFunc], a function on a pointer to the options: an update. *)
Definition PoolOptionFunc := PoolOptions → PoolOptions.

(** [defaultOpts]; [NumCPU] stands for the value of [runtime.NumCPU()]. *)
Definition defaultOpts (NumCPU : Z) : PoolOptions := mkOpts NumCPU.

(** [WithWorkers]: [opts.NumWorkers = num], whatever [num] is. *)
Definition WithWorkers (num : Z) : PoolOptionFunc :=
  fun _ => mkOpts num.

(** [New]: the options are applied in order to the default ones. *)
Definition New (NumCPU : Z) (opts : list PoolOptionFunc) : PoolOptions :=
  foldl (fun o fn => fn o) (defaultOpts NumCPU) opts.

(** *** One call of [Run] as a transition system

    The goroutines of one call (the feeder, the workers, the goroutine that
    closes [results], and the caller in its collecting loop) move one at a
    time.  A label names the goroutine that moves and, where a [select] has
    several ready cases, the case it takes: Go picks among ready cases at
    random, so every choice is an execution.  The context may become done
    between any two steps.  The work function is total and its result
    depends on its input only. *)

(** [ctx.Err()] once the context is done. *)
Inductive CtxErr := Canceled | DeadlineExceeded.

(** Status of the goroutine that feeds [tasks] (lines 105-114). *)
Inductive FStatus :=
| Feeding   (* in the loop, or about to close *)
| Closed    (* ran [close(tasks)] and finished *)
| Stopped.  (* took [<-ctx.Done()] and returned *)

Section Run.

Context {T R : Type}.
Variable zero : R.          (* the zero value of [R] *)
Variable fn : T → R.        (* [fn(ctx, t)] as a function of [t] *)

(** Program point of one worker goroutine (lines 67-101). *)
Inductive Worker :=
| WSelect                         (* at the outer [select], line 71 *)
| WGot (idx : nat) (input : T)    (* pulled a task, at the check of line 84 *)
| WWork (idx : nat) (input : T)   (* passed the check, before [fn], line 91 *)
| WSend (idx : nat) (output : R)  (* at the [select] of line 94 *)
| WExited.                        (* returned, [wg.Done()] has run *)

(** The feeding goroutine.  [task_closes] counts the executions of
    [close(tasks)] and [sent] logs the hand-offs; the program reads
    neither. *)
Record FeederState := mkFeeder {
  next : nat;                     (* loop index [i] *)
  fstatus : FStatus;
  task_closes : nat;
  sent : list (nat * T)
}.

(** The caller's goroutine (lines 121-141).  [got] logs the indices
    received so far; the program does not read it. *)
Record CollectorState := mkCollector {
  outputs : list R;
  collected : nat;
  returned : option (option (list R) * option CtxErr);
  got : list nat
}.

Record State := mkState {
  cancelled : option CtxErr;      (* [ctx.Err()], [None] while not done *)
  feeder : FeederState;
  workers : list Worker;
  calls : list T;                 (* inputs [fn] was called on, in time order *)
  results : list (nat * R);       (* buffer of [results], oldest first *)
  results_closed : bool;
  collector : CollectorState
}.

(** Scheduling choices: which goroutine moves, and through which [select]
    case when several are ready. *)
Inductive Label :=
| Cancel (e : CtxErr)     (* the caller cancels, or the deadline passes *)
| FeedStop                (* line 108 *)
| Feed (w : nat)          (* lines 110 and 77: hand-off to worker [w] *)
| FeedClose               (* line 113 *)
| WorkerDone (w : nat)    (* lines 73 and 95: [<-ctx.Done()] *)
| WorkerClosed (w : nat)  (* line 78: [tasks] is closed *)
| WorkerCheck (w : nat)   (* lines 84-88 *)
| WorkerCall (w : nat)    (* line 91 *)
| WorkerSend (w : nat)    (* line 97 *)
| CloseResults            (* lines 117-118 *)
| CollectDone             (* line 127 *)
| CollectRecv             (* line 131 *)
| CollectReturn.          (* line 141 *)

Definition is_exited (w : Worker) : bool :=
  match w with WExited => true | _ => false end.

Section Steps.

Variable inputs : list T.

(** The state in which [Run] starts, for [W = w.NumWorkers].
    [wg.Add(w.NumWorkers)] panics on a negative count: no state.  The
    channels and the wait group are allocated by each call. *)
Definition Run_init (W : Z) : option State :=
  if (W <? 0)%Z then None
  else Some {|
    cancelled := None;
    feeder := mkFeeder 0 Feeding 0 [];
    workers := replicate (Z.to_nat W) WSelect;
    calls := [];
    results := [];
    results_closed := false;
    collector := mkCollector (replicate (length inputs) zero) 0 None []
  |}.

Definition set_worker (w : nat) (x : Worker) (s : State) : State :=
  {| cancelled := cancelled s; feeder := feeder s;
     workers := <[w := x]> (workers s);
     calls := calls s; results := results s;
     results_closed := results_closed s; collector := collector s |}.

Definition set_feeder (f : FeederState) (s : State) : State :=
  {| cancelled := cancelled s; feeder := f; workers := workers s;
     calls := calls s; results := results s;
     results_closed := results_closed s; collector := collector s |}.

Definition set_collector (c : CollectorState) (s : State) : State :=
  {| cancelled := cancelled s; feeder := feeder s; workers := workers s;
     calls := calls s; results := results s;
     results_closed := results_closed s; collector := c |}.

Definition set_results (q : list (nat * R)) (s : State) : State :=
  {| cancelled := cancelled s; feeder := feeder s; workers := workers s;
     calls := calls s; results := q;
     results_closed := results_closed s; collector := collector s |}.

(** The feeder: [for i, input := range inputs { select {...} }; close(tasks)]. *)
Definition feed_stop (s : State) : option State :=
  let f := feeder s in
  match fstatus f, inputs !! next f, cancelled s with
  | Feeding, Some _, Some _ =>
      Some (set_feeder (mkFeeder (next f) Stopped (task_closes f) (sent f)) s)
  | _, _, _ => None
  end.

Definition feed (w : nat) (s : State) : option State :=
  let f := feeder s in
  match fstatus f, inputs !! next f, workers s !! w with
  | Feeding, Some x, Some WSelect =>
      Some (set_worker w (WGot (next f) x)
             (set_feeder (mkFeeder (S (next f)) Feeding (task_closes f)
                                   (sent f ++ [(next f, x)])) s))
  | _, _, _ => None
  end.

Definition feed_close (s : State) : option State :=
  let f := feeder s in
  match fstatus f, inputs !! next f with
  | Feeding, None =>
      Some (set_feeder (mkFeeder (next f) Closed (S (task_closes f)) (sent f)) s)
  | _, _ => None
  end.

(** A worker.  [tasks] is closed exactly when the feeder is [Closed]. *)
Definition worker_done (w : nat) (s : State) : option State :=
  match cancelled s, workers s !! w with
  | Some _, Some WSelect | Some _, Some (WSend _ _) => Some (set_worker w WExited s)
  | _, _ => None
  end.

Definition worker_closed (w : nat) (s : State) : option State :=
  match fstatus (feeder s), workers s !! w with
  | Closed, Some WSelect => Some (set_worker w WExited s)
  | _, _ => None
  end.

Definition worker_check (w : nat) (s : State) : option State :=
  match workers s !! w with
  | Some (WGot i x) =>
      Some (set_worker w (if cancelled s is Some _ then WExited else WWork i x) s)
  | _ => None
  end.

Definition worker_call (w : nat) (s : State) : option State :=
  match workers s !! w with
  | Some (WWork i x) =>
      Some {| cancelled := cancelled s; feeder := feeder s;
              workers := <[w := WSend i (fn x)]> (workers s);
              calls := calls s ++ [x]; results := results s;
              results_closed := results_closed s; collector := collector s |}
  | _ => None
  end.

(** [results] has capacity [len(inputs)]; a send blocks while the buffer is
    full, and a send on the closed channel panics (no state). *)
Definition worker_send (w : nat) (s : State) : option State :=
  match workers s !! w with
  | Some (WSend i r) =>
      if results_closed s then None
      else if bool_decide (length (results s) < length inputs)%nat
      then Some (set_worker w WSelect (set_results (results s ++ [(i, r)]) s))
      else None
  | _ => None
  end.

(** [wg.Wait(); close(results)]: once every worker has returned. *)
Definition close_results (s : State) : option State :=
  if results_closed s then None
  else if forallb is_exited (workers s)
  then Some {| cancelled := cancelled s; feeder := feeder s; workers := workers s;
               calls := calls s; results := results s;
               results_closed := true; collector := collector s |}
  else None.

(** The collecting loop [for collected < len(inputs) { select {...} }]. *)
Definition collect_done (s : State) : option State :=
  let c := collector s in
  match returned c, cancelled s with
  | None, Some e =>
      if bool_decide (collected c < length inputs)%nat
      then Some (set_collector
                   (mkCollector (outputs c) (collected c) (Some (None, Some e)) (got c)) s)
      else None
  | _, _ => None
  end.

Definition collect_recv (s : State) : option State :=
  let c := collector s in
  match returned c with
  | None =>
      if bool_decide (collected c < length inputs)%nat then
        match results s with
        | (i, r) :: q =>
            (* [outputs[r.idx] = r.output] panics out of range *)
            if bool_decide (i < length (outputs c))%nat
            then Some (set_collector
                         (mkCollector (<[i := r]> (outputs c)) (S (collected c))
                                      None (got c ++ [i]))
                         (set_results q s))
            else None
        | [] =>
            if results_closed s
            then Some (set_collector
                         (mkCollector (outputs c) (collected c)
                                      (Some (Some (outputs c), None)) (got c)) s)
            else None
        end
      else None
  | Some _ => None
  end.

Definition collect_return (s : State) : option State :=
  let c := collector s in
  match returned c with
  | None =>
      if bool_decide (collected c < length inputs)%nat then None
      else Some (set_collector
                   (mkCollector (outputs c) (collected c)
                                (Some (Some (outputs c), None)) (got c)) s)
  | Some _ => None
  end.

Definition step (l : Label) (s : State) : option State :=
  match l with
  | Cancel e =>
      match cancelled s with
      | None => Some {| cancelled := Some e; feeder := feeder s;
                        workers := workers s; calls := calls s;
                        results := results s;
                        results_closed := results_closed s;
                        collector := collector s |}
      | Some _ => None
      end
  | FeedStop => feed_stop s
  | Feed w => feed w s
  | FeedClose => feed_close s
  | WorkerDone w => worker_done w s
  | WorkerClosed w => worker_closed w s
  | WorkerCheck w => worker_check w s
  | WorkerCall w => worker_call w s
  | WorkerSend w => worker_send w s
  | CloseResults => close_results s
  | CollectDone => collect_done s
  | CollectRecv => collect_recv s
  | CollectReturn => collect_return s
  end.

(** A schedule is a list of labels; it is an execution when each step is
    enabled. *)
Fixpoint run (ls : list Label) (s : State) : option State :=
  match ls with
  | [] => Some s
  | l :: ls' => match step l s with Some s' => run ls' s' | None => None end
  end.

Definition exec (W : Z) (ls : list Label) : option State :=
  match Run_init W with Some s => run ls s | None => None end.

(** *** What the invariants speak about *)

(** The index a worker holds. *)
Definition held (w : Worker) : list nat :=
  match w with
  | WGot i _ | WWork i _ | WSend i _ => [i]
  | WSelect | WExited => []
  end.

(** All indices that are with a worker, in the buffer, or collected. *)
Definition tracked (s : State) : list nat :=
  (workers s ≫= held) ++ (results s).*1 ++ got (collector s).

(** What a worker holds agrees with the inputs. *)
Definition worker_ok (w : Worker) : Prop :=
  match w with
  | WGot i x | WWork i x => inputs !! i = Some x
  | WSend i r => fn <$> inputs !! i = Some r
  | WSelect | WExited => True
  end.

(** Steps a goroutine still has to take: bounds the length of executions. *)
Definition worker_fuel (w : Worker) : nat :=
  match w with
  | WSelect => 1 | WGot _ _ => 5 | WWork _ _ => 4 | WSend _ _ => 3 | WExited => 0
  end.

Definition fuel (s : State) : nat :=
  (if cancelled s is None then 1 else 0)
  + (if fstatus (feeder s) is Feeding
     then 5 * (length inputs - next (feeder s)) + 1 else 0)
  + sum_list (worker_fuel <$> workers s)
  + length (results s)
  + (if results_closed s then 0 else 1)
  + (if returned (collector s) is None then 1 else 0).

(** The tasks handed off when the loop index is [n]. *)
Definition fed (n : nat) : list (nat * T) := zip (seq 0 n) (take n inputs).

Record FeederInv (s : State) : Prop := {
  inv_next : next (feeder s) ≤ length inputs;
  inv_closed : fstatus (feeder s) = Closed → next (feeder s) = length inputs;
  inv_stopped : fstatus (feeder s) = Stopped →
                is_Some (cancelled s) ∧ next (feeder s) < length inputs;
  inv_closes : task_closes (feeder s)
               = if fstatus (feeder s) is Closed then 1 else 0;
  inv_sent : sent (feeder s) = fed (next (feeder s))
}.

Record DataInv (W : Z) (s : State) : Prop := {
  inv_workers : length (workers s) = Z.to_nat W;
  inv_worker_ok : Forall worker_ok (workers s);
  inv_results_ok : Forall (fun p => fn <$> inputs !! p.1 = Some p.2) (results s);
  inv_calls : Forall (fun x => x ∈ inputs) (calls s);
  inv_sub : tracked s ⊆+ seq 0 (next (feeder s));
  inv_all : cancelled s = None → tracked s ≡ₚ seq 0 (next (feeder s));
  inv_exit : cancelled s = None → WExited ∈ workers s →
             fstatus (feeder s) = Closed;
  inv_rclosed : results_closed s = true → Forall (fun w => w = WExited) (workers s)
}.

Record CollectorInv (s : State) : Prop := {
  inv_out_len : length (outputs (collector s)) = length inputs;
  inv_out : ∀ i x, inputs !! i = Some x →
            outputs (collector s) !! i
            = Some (if decide (i ∈ got (collector s)) then fn x else zero);
  inv_collected : collected (collector s) = length (got (collector s));
  inv_ret : ∀ o e, returned (collector s) = Some (o, e) →
            match e with
            | Some err => o = None ∧ cancelled s = Some err
            | None => o = Some (outputs (collector s))
                      ∧ (length inputs ≤ collected (collector s)
                         ∨ (results_closed s = true ∧ results s = []))
            end
}.

(** *** Executions *)

Lemma run_app (ls1 ls2 : list Label) (s : State) :
  run (ls1 ++ ls2) s
  = match run ls1 s with Some s' => run ls2 s' | None => None end.
Proof.
  revert s. induction ls1 as [|l ls1 IH]; intros s; simpl; [done|].
  destruct (step l s); [apply IH | done].
Qed.

(** An invariant of the steps that holds initially holds after every
    execution. *)
Lemma exec_invariant (P : State → Prop) (W : Z) :
  (∀ s, Run_init W = Some s → P s) →
  (∀ l s s', P s → step l s = Some s' → P s') →
  ∀ ls s, exec W ls = Some s → P s.
Proof.
  intros Hinit Hstep ls s. unfold exec.
  destruct (Run_init W) as [s0|] eqn:E0; [|done].
  specialize (Hinit s0 eq_refl). clear E0.
  revert s0 Hinit. induction ls as [|l ls IH]; intros s0 H0; simpl.
  - by intros [= <-].
  - destruct (step l s0) as [s1|] eqn:E1; [|done]. eauto.
Qed.

(** Unfolds the step functions and splits on what they inspect. *)
Ltac step_cases H :=
  unfold step, feed_stop, feed, feed_close, worker_done, worker_closed,
    worker_check, worker_call, worker_send, close_results, collect_done,
    collect_recv, collect_return in H;
  repeat (case_match; try discriminate; simplify_eq);
  try discriminate; simplify_eq; simpl in *.

Lemma step_cancelled l s s' :
  step l s = Some s' → cancelled s' = None → cancelled s = None.
Proof. intros H. destruct l; step_cases H; intros; congruence. Qed.

(** *** The feeder *)

Lemma fed_S (n : nat) (x : T) :
  inputs !! n = Some x → fed (S n) = fed n ++ [(n, x)].
Proof.
  intros Hx. unfold fed.
  rewrite seq_S, (take_S_r _ _ x) by done. simpl.
  rewrite zip_with_app; [done|].
  rewrite length_seq, length_take. apply lookup_lt_Some in Hx. lia.
Qed.

Lemma FeederInv_init W s : Run_init W = Some s → FeederInv s.
Proof.
  unfold Run_init. case_match; [done|]. intros [= <-].
  split; simpl; try done. lia.
Qed.

Lemma FeederInv_step l s s' :
  FeederInv s → step l s = Some s' → FeederInv s'.
Proof.
  intros HI H.
  destruct l; step_cases H; destruct HI as [Hn Hc Hs Hk Ht];
    try (split; simpl; intros; simplify_eq; eauto; fail);
    try match goal with H : fstatus (feeder _) = _ |- _ => rewrite H in Hk end.
  - (* Cancel *)
    split; simpl; auto. intros Hst. destruct (Hs Hst) as [_ ?]. eauto.
  - (* FeedStop *)
    split; simpl; auto; try done. intros _. split; [eauto|].
    by eapply lookup_lt_Some.
  - (* Feed *)
    match goal with H : inputs !! _ = Some _ |- _ =>
      pose proof (lookup_lt_Some _ _ _ H); pose proof (fed_S _ _ H) end.
    split; simpl; auto; try done. congruence.
  - (* FeedClose *)
    match goal with H : inputs !! _ = None |- _ =>
      apply lookup_ge_None in H end.
    split; simpl; auto; try done; lia.
Qed.

(** *** Workers, buffer and the indices in flight *)

Lemma held_insert (ws : list Worker) (w : nat) (old new : Worker) :
  ws !! w = Some old →
  held old ++ (<[w := new]> ws ≫= held) ≡ₚ held new ++ (ws ≫= held).
Proof.
  revert w. induction ws as [|a ws IH]; intros [|w] Hw; simplify_eq/=.
  - by rewrite !(assoc (++)), (comm (++) (held old)).
  - rewrite !(assoc (++)), (comm (++) (held old)), <- !(assoc (++)).
    rewrite (IH _ Hw).
    by rewrite !(assoc (++)), (comm (++) (held a)).
Qed.

(** How one step changes the tracked indices: unchanged, the next index
    is added by a hand-off, or a worker that sees the cancellation drops
    one. *)
Lemma tracked_step l s s' :
  step l s = Some s' →
  (next (feeder s') = next (feeder s) ∧ tracked s' ≡ₚ tracked s)
  ∨ (next (feeder s') = S (next (feeder s))
     ∧ tracked s' ≡ₚ next (feeder s) :: tracked s)
  ∨ (next (feeder s') = next (feeder s) ∧ is_Some (cancelled s')
     ∧ ∃ i, i :: tracked s' ≡ₚ tracked s).
Proof.
  intros H. unfold tracked.
  destruct l; step_cases H; try (left; split; done);
    match goal with
    | Hw : workers s !! ?w = Some ?old |- context [<[?w := ?new]> (workers s)] =>
        pose proof (held_insert _ _ _ new Hw) as Hp; simpl in Hp
    | _ => idtac
    end.
  all: try (right; left; split; [done|]; by rewrite Hp).
  all: try (left; split; [done|]; by rewrite ?Hp).
  all: try (left; split; [done|]; by apply (inj (cons _))).
  all: try (right; right; split; [done|]; split; [by eauto|];
            eexists; rewrite <- Hp; simpl; reflexivity).
  all: left; split; [done|].
  - (* WorkerCheck *) apply (inj (cons idx)) in Hp. by rewrite Hp.
  - (* WorkerCall *) apply (inj (cons idx)) in Hp. by rewrite Hp.
  - (* WorkerSend *)
    rewrite <- Hp, fmap_app. simpl.
    rewrite <- !(assoc (++)). simpl.
    by rewrite !Permutation_middle.
  - (* CollectRecv, closed *)
    by match goal with H : results s = [] |- _ => rewrite H end.
  - (* CollectRecv *)
    apply Permutation_app_head.
    by rewrite (assoc (++)), <- Permutation_cons_append.
Qed.

Lemma held_idle (n : nat) : replicate n WSelect ≫= held = [].
Proof. induction n; simpl; auto. Qed.

Lemma DataInv_init W s : Run_init W = Some s → DataInv W s.
Proof.
  unfold Run_init. case_match; [done|]. intros [= <-].
  split; simpl; try done.
  - by rewrite length_replicate.
  - by apply Forall_replicate.
  - unfold tracked. simpl. by rewrite held_idle.
  - intros _. unfold tracked. simpl. by rewrite held_idle.
  - by intros _ [? _]%elem_of_replicate.
Qed.

Lemma DataInv_step W l s s' :
  DataInv W s → step l s = Some s' → DataInv W s'.
Proof.
  intros HI H.
  pose proof (tracked_step _ _ _ H) as Ht.
  pose proof (step_cancelled _ _ _ H) as Hcn.
  split; [clear Ht Hcn ..| | | clear Ht | clear Ht Hcn].
  - (* inv_workers *)
    destruct HI. destruct l; step_cases H; by rewrite ?length_insert.
  - (* inv_worker_ok *)
    destruct HI as [_ Hw _ _ _ _ _ _].
    destruct l; step_cases H; try done; apply Forall_insert; try done;
      match goal with Hl : workers s !! _ = Some _ |- _ =>
        apply (Forall_lookup_1 _ _ _ _ Hw) in Hl; simpl in Hl end;
      try done.
    simpl. by match goal with Hi : inputs !! _ = Some _ |- _ => rewrite Hi end.
  - (* inv_results_ok *)
    destruct HI as [_ Hw Hr _ _ _ _ _].
    destruct l; step_cases H; try done.
    + apply Forall_app. split; [done|]. apply Forall_singleton. simpl.
      match goal with Hl : workers s !! _ = Some _ |- _ =>
        by apply (Forall_lookup_1 _ _ _ _ Hw) in Hl end.
    + by match goal with Hq : results s = [] |- _ => rewrite Hq end.
    + by apply Forall_cons_1 in Hr as [_ ?].
  - (* inv_calls *)
    destruct HI as [_ Hw _ Hc _ _ _ _].
    destruct l; step_cases H; try done.
    apply Forall_app. split; [done|]. apply Forall_singleton.
    match goal with Hl : workers s !! _ = Some _ |- _ =>
      apply (Forall_lookup_1 _ _ _ _ Hw) in Hl; simpl in Hl end.
    by eapply list_elem_of_lookup_2.
  - (* inv_sub *)
    destruct HI as [_ _ _ _ Hs _ _ _].
    destruct Ht as [[-> Hp] | [[-> Hp] | (-> & _ & i & Hp)]].
    + by rewrite Hp.
    + rewrite Hp, seq_S. simpl. rewrite <- Permutation_cons_append.
      by apply submseteq_skip.
    + trans (i :: tracked s'); [by apply submseteq_cons | by rewrite Hp].
  - (* inv_all *)
    destruct HI as [_ _ _ _ _ Ha _ _]. intros Hc'. specialize (Ha (Hcn Hc')).
    destruct Ht as [[-> Hp] | [[-> Hp] | (-> & [e He] & _)]].
    + by rewrite Hp.
    + rewrite Hp, seq_S. simpl. by rewrite <- Permutation_cons_append, Ha.
    + congruence.
  - (* inv_exit *)
    destruct HI as [_ _ _ _ _ _ He _]. intros Hc' Hex.
    specialize (He (Hcn Hc')).
    destruct l; step_cases H; try done; auto; try congruence;
      try (apply elem_of_insert_inv in Hex as [?|?]; [done|]; auto).
  - (* inv_rclosed *)
    destruct HI as [_ _ _ _ _ _ _ Hr]. intros Hcl.
    destruct l; step_cases H; auto; try congruence;
      try (match goal with Hl : workers s !! _ = Some _ |- _ =>
             apply (Forall_lookup_1 _ _ _ _ (Hr Hcl)) in Hl; done end).
    apply Forall_forall. intros x Hx.
    match goal with Hf : forallb _ _ = true |- _ =>
      rewrite forallb_forall in Hf; apply list_elem_of_In, Hf in Hx end.
    by destruct x.
Qed.

(** *** The collector *)

Lemma CollectorInv_init W s : Run_init W = Some s → CollectorInv s.
Proof.
  unfold Run_init. case_match; [done|]. intros [= <-].
  split; simpl; try done.
  - by rewrite length_replicate.
  - intros i x Hi. apply lookup_replicate_2. by eapply lookup_lt_Some.
Qed.

Lemma CollectorInv_step W l s s' :
  DataInv W s → CollectorInv s → step l s = Some s' → CollectorInv s'.
Proof.
  intros HD HI H. split.
  - (* inv_out_len *)
    destruct HI. destruct l; step_cases H; by rewrite ?length_insert.
  - (* inv_out *)
    destruct HI as [Hlen Ho _ _]. destruct HD as [_ _ Hr _ _ _ _ _].
    destruct l; step_cases H; try done.
    intros j x Hj.
    apply Forall_cons_1 in Hr as [Hr _]. simpl in Hr.
    match goal with Hb : bool_decide (_ < length (outputs _)) = true |- _ =>
      apply bool_decide_eq_true in Hb end.
    destruct (decide (j = n)) as [->|Hne].
    + rewrite list_lookup_insert_eq by done.
      rewrite decide_True by (apply elem_of_app; right; apply list_elem_of_singleton; done).
      rewrite Hj in Hr. simpl in Hr. congruence.
    + rewrite list_lookup_insert_ne by done. rewrite (Ho _ _ Hj).
      f_equal. destruct (decide (j ∈ got (collector s))) as [Hin|Hin].
      * rewrite decide_True; [done|]. apply elem_of_app. by left.
      * rewrite decide_False; [done|].
        rewrite elem_of_app, list_elem_of_singleton. tauto.
  - (* inv_collected *)
    destruct HI as [_ _ Hc _].
    destruct l; step_cases H; try done.
    rewrite length_app. simpl. lia.
  - (* inv_ret *)
    destruct HI as [_ _ _ Hret].
    destruct l; step_cases H; intros o oe Hr'; simpl in *; try discriminate;
      try (specialize (Hret _ _ Hr'); destruct oe as [err|];
           [ destruct Hret as [? ?]; split; congruence
           | destruct Hret as [? [?|[? ?]]]; split;
             [done | by left | done | right; split; congruence ] ]);
      simplify_eq; (split; [done|]); try done.
    + (* CollectRecv on the closed, empty channel *) by right.
    + (* CollectReturn *)
      left. match goal with Hb : bool_decide _ = false |- _ =>
        apply bool_decide_eq_false in Hb end. lia.
Qed.

(** *** All invariants together *)

Record Inv (W : Z) (s : State) : Prop := {
  inv_feeder : FeederInv s;
  inv_data : DataInv W s;
  inv_collector : CollectorInv s
}.

Lemma exec_Inv W ls s : exec W ls = Some s → Inv W s.
Proof.
  apply exec_invariant.
  - intros s0 H0. split;
      eauto using FeederInv_init, DataInv_init, CollectorInv_init.
  - intros l s1 s2 [HF HD HC] Hst. split;
      eauto using FeederInv_step, DataInv_step, CollectorInv_step.
Qed.

Lemma exec_snoc W ls l s s' :
  exec W ls = Some s → step l s = Some s' → exec W (ls ++ [l]) = Some s'.
Proof.
  unfold exec. destruct (Run_init W); [|done].
  intros H1 H2. rewrite run_app, H1. simpl. by rewrite H2.
Qed.

(** *** Every execution is finite *)

Lemma fuel_insert (ws : list Worker) (w : nat) (old new : Worker) :
  ws !! w = Some old →
  sum_list (worker_fuel <$> <[w := new]> ws) + worker_fuel old
  = sum_list (worker_fuel <$> ws) + worker_fuel new.
Proof.
  revert w. induction ws as [|a ws IH]; intros [|w] Hw; simplify_eq/=; [lia|].
  specialize (IH _ Hw). lia.
Qed.

Lemma fuel_idle (n : nat) : sum_list (worker_fuel <$> replicate n WSelect) = n.
Proof. induction n as [|n IH]; simpl; [done|]. by f_equal. Qed.

Lemma step_fuel l s s' : step l s = Some s' → fuel s' < fuel s.
Proof.
  intros H.
  destruct l; step_cases H; unfold fuel; simpl;
    repeat match goal with
    | Hw : workers s !! ?w = Some ?old |- context [<[?w := ?new]> (workers s)] =>
        pose proof (fuel_insert _ _ _ new Hw); clear Hw
    | Hi : inputs !! _ = Some _ |- _ => apply lookup_lt_Some in Hi
    | Hq : ?x = _ |- context [?x] => rewrite Hq
    end;
    simpl in *; rewrite ?length_app; simpl; try lia.
Qed.

Lemma run_fuel ls s s' : run ls s = Some s' → length ls + fuel s' ≤ fuel s.
Proof.
  revert s. induction ls as [|l ls IH]; intros s; simpl.
  - intros [= <-]. lia.
  - destruct (step l s) as [s1|] eqn:E; [|done]. intros Hr.
    apply IH in Hr. apply step_fuel in E. lia.
Qed.

Lemma exec_length W ls s :
  exec W ls = Some s → length ls ≤ 5 * length inputs + Z.to_nat W + 4.
Proof.
  unfold exec, Run_init. destruct (W <? 0)%Z; [done|]. intros Hr%run_fuel.
  unfold fuel in Hr at 2. simpl in Hr.
  rewrite fuel_idle in Hr. lia.
Qed.

(** *** The call cannot get stuck before it returns *)

Definition is_cancel (l : Label) : bool :=
  match l with Cancel _ => true | _ => false end.

Lemma step_keeps_cancelled l s s' :
  step l s = Some s' → is_cancel l = false → cancelled s' = cancelled s.
Proof. intros H. destruct l; step_cases H; done. Qed.

Lemma progress W s :
  Inv W s → returned (collector s) = None →
  ∃ l s', is_cancel l = false ∧ step l s = Some s'.
Proof.
  intros [HF HD HC] Hret.
  destruct (decide (collected (collector s) < length inputs)) as [Hlt|Hge].
  2: { exists CollectReturn. eexists. split; [done|]. simpl.
       unfold collect_return. rewrite Hret, bool_decide_eq_false_2 by done. done. }
  destruct (cancelled s) as [e|] eqn:Hc.
  { exists CollectDone. eexists. split; [done|]. simpl.
    unfold collect_done. rewrite Hret, Hc, bool_decide_eq_true_2 by done. done. }
  destruct (results s) as [|[i r] q] eqn:Hq.
  2: { exists CollectRecv. eexists. split; [done|]. simpl.
       unfold collect_recv. rewrite Hret, Hq, bool_decide_eq_true_2 by done.
       rewrite bool_decide_eq_true_2; [done|].
       pose proof (inv_results_ok _ _ HD) as Hr. rewrite Hq in Hr.
       apply Forall_cons_1 in Hr as [Hr _]. simpl in Hr.
       rewrite (inv_out_len _ HC).
       destruct (inputs !! i) eqn:Hi; [|done]. by eapply lookup_lt_Some. }
  destruct (results_closed s) eqn:Hcl.
  { exists CollectRecv. eexists. split; [done|]. simpl.
    unfold collect_recv. rewrite Hret, Hq, Hcl, bool_decide_eq_true_2 by done.
    done. }
  destruct (forallb is_exited (workers s)) eqn:Hall.
  { exists CloseResults. eexists. split; [done|]. simpl.
    unfold close_results. by rewrite Hcl, Hall. }
  apply forallb_false_lookup in Hall as (w & x & Hw & Hx).
  destruct x as [|i x|i x|i r|]; [| | | |done].
  - destruct (fstatus (feeder s)) eqn:Hst.
    + destruct (inputs !! next (feeder s)) as [x|] eqn:Hi.
      * exists (Feed w). eexists. split; [done|]. simpl.
        unfold feed. by rewrite Hst, Hi, Hw.
      * exists FeedClose. eexists. split; [done|]. simpl.
        unfold feed_close. by rewrite Hst, Hi.
    + exists (WorkerClosed w). eexists. split; [done|]. simpl.
      unfold worker_closed. by rewrite Hst, Hw.
    + destruct (inv_stopped _ HF Hst) as [[? ?] _]. congruence.
  - exists (WorkerCheck w). eexists. split; [done|]. simpl.
    unfold worker_check. by rewrite Hw.
  - exists (WorkerCall w). eexists. split; [done|]. simpl.
    unfold worker_call. by rewrite Hw.
  - exists (WorkerSend w). eexists. split; [done|]. simpl.
    unfold worker_send. rewrite Hw, Hcl, Hq. simpl.
    rewrite bool_decide_eq_true_2 by lia. done.
Qed.

(** *** What the call returns *)

Lemma outputs_complete W s :
  Inv W s → got (collector s) ≡ₚ seq 0 (length inputs) →
  outputs (collector s) = fn <$> inputs.
Proof.
  intros [_ _ HC] Hgot. apply list_eq. intros i.
  rewrite list_lookup_fmap.
  destruct (inputs !! i) as [x|] eqn:Hi; simpl.
  - rewrite (inv_out _ HC _ _ Hi), decide_True; [done|].
    rewrite Hgot. apply elem_of_seq. apply lookup_lt_Some in Hi. lia.
  - apply lookup_ge_None. rewrite (inv_out_len _ HC).
    by apply lookup_ge_None in Hi.
Qed.

Lemma held_exited (ws : list Worker) :
  Forall (fun w => w = WExited) ws → ws ≫= held = [].
Proof. induction 1 as [|w ws -> _ IH]; simpl; auto. Qed.

Lemma got_tracked s : got (collector s) ⊆+ tracked s.
Proof.
  unfold tracked. by apply submseteq_inserts_l, submseteq_inserts_l.
Qed.

(** Without cancellation and with at least one worker, whatever is returned
    is the image of the inputs and a nil error. *)
Lemma return_no_cancel W s r :
  (1 ≤ W)%Z → Inv W s → cancelled s = None →
  returned (collector s) = Some r → r = (Some (fn <$> inputs), None).
Proof.
  intros HW HI Hc Hr. pose proof HI as [HF HD HC].
  destruct r as [o [e|]]; pose proof (inv_ret _ HC _ _ Hr) as Hret; simpl in Hret.
  { destruct Hret. congruence. }
  destruct Hret as [-> Hcase]. do 2 f_equal.
  apply (outputs_complete W); [done|].
  destruct Hcase as [Hlen | [Hcl Hq]].
  - apply submseteq_length_Permutation.
    + etrans; [apply got_tracked|]. etrans; [apply (inv_sub _ _ HD)|].
      apply seq_submseteq, (inv_next _ HF).
    + rewrite length_seq, <- (inv_collected _ HC). done.
  - pose proof (inv_rclosed _ _ HD Hcl) as Hex.
    pose proof (inv_all _ _ HD Hc) as Hall.
    unfold tracked in Hall. rewrite held_exited, Hq in Hall by done.
    simpl in Hall. rewrite Hall.
    assert (WExited ∈ workers s) as Hin.
    { pose proof (inv_workers _ _ HD) as Hlen.
      destruct (workers s) as [|w ws]; simpl in Hlen; [lia|].
      apply Forall_cons_1 in Hex as [-> _]. apply elem_of_cons. by left. }
    by rewrite (inv_closed _ HF (inv_exit _ _ HD Hc Hin)).
Qed.

(** From every state reached without cancellation the call can be run to
    its return, by steps of its own goroutines. *)
Lemma can_return W (n : nat) :
  (1 ≤ W)%Z →
  ∀ ls s, fuel s ≤ n → exec W ls = Some s → cancelled s = None →
  ∃ ls' s', existsb is_cancel ls' = false ∧ run ls' s = Some s'
            ∧ returned (collector s') = Some (Some (fn <$> inputs), None).
Proof.
  intros HW. induction n as [|n IH]; intros ls s Hfuel Hex Hc;
    pose proof (exec_Inv _ _ _ Hex) as HI;
    destruct (returned (collector s)) as [r|] eqn:Hr;
    try (exists [], s; split; [done|]; split; [done|];
         rewrite Hr; f_equal; by eapply return_no_cancel).
  - unfold fuel in Hfuel. rewrite Hr in Hfuel. simpl in Hfuel. lia.
  - destruct (progress W s HI Hr) as (l & s1 & Hl & Hst).
    pose proof (step_fuel _ _ _ Hst) as Hlt.
    pose proof (step_keeps_cancelled _ _ _ Hst Hl) as Hc1. rewrite Hc in Hc1.
    destruct (IH (ls ++ [l]) s1) as (ls' & s' & Hnc & Hrun & Hret);
      [lia | by eapply exec_snoc | done |].
    exists (l :: ls'), s'. simpl. by rewrite Hst, Hl.
Qed.

(** C1.  With at least one worker and no cancellation, every execution of
    [Run] is finite, whatever it returns is the slice [fn inputs[0], ...,
    fn inputs[n-1]] (same length as the inputs, element [i] is [fn] of input
    [i]) with a nil error, independently of the worker count and of the
    schedule, and from every state it reaches it can be run on to that
    return by steps of its own goroutines alone. *)
Theorem Run_ordered (W : Z) (ls : list Label) (s : State) :
  (1 ≤ W)%Z → exec W ls = Some s → cancelled s = None →
  length ls ≤ 5 * length inputs + Z.to_nat W + 4
  ∧ (∀ r, returned (collector s) = Some r → r = (Some (fn <$> inputs), None))
  ∧ (∃ ls' s', existsb is_cancel ls' = false ∧ run ls' s = Some s'
       ∧ returned (collector s') = Some (Some (fn <$> inputs), None)).
Proof.
  intros HW Hex Hc. split; [by eapply exec_length|]. split.
  - intros r Hr. eapply return_no_cancel; eauto using exec_Inv.
  - by eapply (can_return W (fuel s)).
Qed.

(** The collecting loop taking [<-ctx.Done()] returns [nil, ctx.Err()]. *)
Lemma collect_done_returns_nil (s s' : State) :
  step CollectDone s = Some s' →
  ∃ err, cancelled s = Some err
         ∧ collected (collector s) < length inputs
         ∧ returned (collector s') = Some (None, Some err).
Proof.
  intros H. step_cases H.
  match goal with Hb : bool_decide _ = true |- _ =>
    apply bool_decide_eq_true in Hb end.
  eauto.
Qed.

(** C2 (as the code has it).  When the collecting loop observes the
    cancellation, before all results are collected, [Run] returns a nil
    slice and the context's error, and an error is returned in no other way;
    a returned slice that is not nil has the length of the inputs, holds
    [fn inputs[i]] in every collected slot and the zero value in every other
    slot. *)
Theorem Run_outcome (W : Z) (ls : list Label) (s : State) :
  exec W ls = Some s →
  (∀ s', step CollectDone s = Some s' →
     ∃ err, cancelled s = Some err
            ∧ collected (collector s) < length inputs
            ∧ returned (collector s') = Some (None, Some err))
  ∧ (∀ o e, returned (collector s) = Some (o, e) →
       match e with
       | Some err => o = None ∧ cancelled s = Some err
       | None =>
           ∃ out, o = Some out ∧ length out = length inputs
                  ∧ ∀ i x, inputs !! i = Some x →
                      out !! i = Some (if decide (i ∈ got (collector s))
                                       then fn x else zero)
       end).
Proof.
  intros Hex. split; [apply collect_done_returns_nil|].
  intros o e Hr. destruct (exec_Inv _ _ _ Hex) as [_ _ HC].
  pose proof (inv_ret _ HC _ _ Hr) as Hret. destruct e as [err|]; [done|].
  destruct Hret as [-> _]. eexists. split; [done|]. split.
  - apply (inv_out_len _ HC).
  - apply (inv_out _ HC).
Qed.

(** An error is returned only from inside the loop, which is entered only
    when there are inputs. *)
Lemma error_needs_input W ls s o e :
  exec W ls = Some s → returned (collector s) = Some (o, Some e) →
  0 < length inputs.
Proof.
  intros Hex. revert o e. revert ls s Hex.
  apply (exec_invariant
    (fun s => ∀ o e, returned (collector s) = Some (o, Some e) → 0 < length inputs)).
  - unfold Run_init. intros s. destruct (W <? 0)%Z; [done|]. by intros [= <-].
  - intros l s s' IH Hst.
    destruct l; step_cases Hst; intros o' e' Hr; simpl in *; eauto; simplify_eq.
    match goal with Hb : bool_decide _ = true |- _ =>
      apply bool_decide_eq_true in Hb; lia end.
Qed.

(** *** The feeder closes [tasks] at most once *)

Lemma fed_fst (n : nat) : n ≤ length inputs → (fed n).*1 = seq 0 n.
Proof.
  intros Hn. unfold fed. apply fst_zip.
  rewrite length_seq, length_take. lia.
Qed.

Lemma fed_snd (n : nat) : (fed n).*2 = take n inputs.
Proof.
  unfold fed. apply snd_zip. rewrite length_seq, length_take. lia.
Qed.

Lemma stopped_stable ls s s' :
  run ls s = Some s' → fstatus (feeder s) = Stopped →
  fstatus (feeder s') = Stopped.
Proof.
  revert s. induction ls as [|l ls IH]; intros s; simpl.
  - by intros [= <-].
  - destruct (step l s) as [s1|] eqn:E; [|done]. intros Hr Hst.
    apply (IH _ Hr). clear Hr IH.
    destruct l; step_cases E; congruence.
Qed.

(** C6 (as the code has it).  In every execution the feeder closes [tasks]
    at most once: once when it has fed all inputs, never when it stops on
    the cancellation (line 109 returns without closing), and the hand-offs
    made so far are the first inputs, in order, with their indices. *)
Theorem feeder_closes (W : Z) (ls : list Label) (s : State) :
  exec W ls = Some s →
  task_closes (feeder s) ≤ 1
  ∧ (task_closes (feeder s) = 1 ↔ fstatus (feeder s) = Closed)
  ∧ (fstatus (feeder s) = Closed → next (feeder s) = length inputs)
  ∧ (fstatus (feeder s) = Stopped →
       is_Some (cancelled s) ∧ next (feeder s) < length inputs
       ∧ ∀ ls' s', run ls' s = Some s' → task_closes (feeder s') = 0)
  ∧ (fstatus (feeder s) = Feeding → next (feeder s) = length inputs →
       step FeedStop s = None
       ∧ ∃ s', step FeedClose s = Some s' ∧ task_closes (feeder s') = 1)
  ∧ (sent (feeder s)).*1 = seq 0 (next (feeder s))
  ∧ (sent (feeder s)).*2 = take (next (feeder s)) inputs.
Proof.
  intros Hex. destruct (exec_Inv _ _ _ Hex) as [HF _ _].
  pose proof (inv_closes _ HF) as Hk.
  split; [|split; [|split; [|split; [|split; [|split]]]]].
  - rewrite Hk. destruct (fstatus (feeder s)); lia.
  - rewrite Hk. destruct (fstatus (feeder s)); done.
  - apply (inv_closed _ HF).
  - intros Hst. destruct (inv_stopped _ HF Hst) as [Hc Hn].
    split; [done|]. split; [done|].
    intros ls' s' Hrun.
    assert (exec W (ls ++ ls') = Some s') as Hex'.
    { unfold exec in *. destruct (Run_init W); [|done].
      by rewrite run_app, Hex. }
    destruct (exec_Inv _ _ _ Hex') as [HF' _ _].
    rewrite (inv_closes _ HF'), (stopped_stable _ _ _ Hrun); done.
  - intros Hst Hn. simpl. unfold feed_stop, feed_close.
    rewrite Hst, Hn, (lookup_ge_None_2 inputs (length inputs)) by lia.
    split; [done|]. eexists. split; [done|]. simpl.
    rewrite Hk, Hst. done.
  - rewrite (inv_sent _ HF). apply fed_fst, (inv_next _ HF).
  - rewrite (inv_sent _ HF). apply fed_snd.
Qed.

(** *** Channel discipline *)

Lemma held_lookup_length (ws : list Worker) (w : nat) (x : Worker) :
  ws !! w = Some x → length (held x) ≤ length (ws ≫= held).
Proof.
  revert w. induction ws as [|a ws IH]; intros [|w] Hw; simplify_eq/=;
    rewrite length_app; [lia|].
  specialize (IH _ Hw). lia.
Qed.

Lemma tracked_bound W s : Inv W s → length (tracked s) ≤ length inputs.
Proof.
  intros [HF HD _]. pose proof (submseteq_length _ _ (inv_sub _ _ HD)) as Hl.
  rewrite length_seq in Hl. pose proof (inv_next _ HF). lia.
Qed.

(** The sends and the stores of [Run] cannot panic or block: a worker at
    its send finds [results] open and not full, so the send goes through;
    the buffer never holds more than [len(inputs)] results; and every
    buffered result has an index inside [outputs]. *)
Theorem channel_safety (W : Z) (ls : list Label) (s : State) :
  exec W ls = Some s →
  (∀ w i r, workers s !! w = Some (WSend i r) →
     results_closed s = false
     ∧ length (results s) < length inputs
     ∧ ∃ s', step (WorkerSend w) s = Some s')
  ∧ length (results s) ≤ length inputs
  ∧ (∀ i r, (i, r) ∈ results s → i < length (outputs (collector s))).
Proof.
  intros Hex. pose proof (exec_Inv _ _ _ Hex) as HI.
  pose proof (tracked_bound _ _ HI) as Hb. destruct HI as [HF HD HC].
  unfold tracked in Hb. rewrite !length_app, length_fmap in Hb.
  split; [|split].
  - intros w i r Hw.
    assert (results_closed s = false) as Hcl.
    { destruct (results_closed s) eqn:E; [|done].
      by apply (Forall_lookup_1 _ _ _ _ (inv_rclosed _ _ HD E)) in Hw. }
    pose proof (held_lookup_length _ _ _ Hw) as Hh. simpl in Hh.
    assert (length (results s) < length inputs) as Hlt by lia.
    split; [done|]. split; [done|].
    eexists. simpl. unfold worker_send.
    by rewrite Hw, Hcl, bool_decide_eq_true_2.
  - lia.
  - intros i r Hin. rewrite (inv_out_len _ HC).
    pose proof (inv_results_ok _ _ HD) as Hr.
    rewrite Forall_forall in Hr. specialize (Hr _ Hin). simpl in Hr.
    destruct (inputs !! i) eqn:Hi; [|done]. by eapply lookup_lt_Some.
Qed.


(** *** Termination of the call and of its goroutines *)

(** Nothing is left to run: [Run] has returned, every worker has returned,
    [results] is closed and the feeder has finished. *)
Definition all_done (s : State) : Prop :=
  is_Some (returned (collector s))
  ∧ Forall (fun w => w = WExited) (workers s)
  ∧ results_closed s = true
  ∧ fstatus (feeder s) ≠ Feeding.

(** No goroutine can move, whatever the context does. *)
Definition quiescent (s : State) : Prop :=
  ∀ l, is_cancel l = false → step l s = None.

Lemma forallb_exited (ws : list Worker) :
  forallb is_exited ws = true → Forall (fun w => w = WExited) ws.
Proof.
  intros Hf. apply Forall_forall. intros x Hx.
  rewrite forallb_forall in Hf. apply list_elem_of_In, Hf in Hx.
  by destruct x.
Qed.

Lemma done_or_step W s :
  (1 ≤ W)%Z → Inv W s →
  all_done s ∨ ∃ l s', is_cancel l = false ∧ step l s = Some s'.
Proof.
  intros HW HI.
  destruct (returned (collector s)) as [r|] eqn:Hret.
  2: { right. by apply (progress W). }
  pose proof (tracked_bound _ _ HI) as Hb. destruct HI as [HF HD HC].
  unfold tracked in Hb. rewrite !length_app, length_fmap in Hb.
  destruct (forallb is_exited (workers s)) eqn:Hall.
  - apply forallb_exited in Hall as Hex.
    destruct (results_closed s) eqn:Hcl.
    2: { right. exists CloseResults. eexists. split; [done|]. simpl.
         unfold close_results. by rewrite Hcl, Hall. }
    destruct (fstatus (feeder s)) eqn:Hst.
    2, 3: left; repeat split; eauto; by rewrite Hst.
    right. destruct (inputs !! next (feeder s)) as [x|] eqn:Hi.
    + assert (WExited ∈ workers s) as Hin.
      { pose proof (inv_workers _ _ HD) as Hlen.
        destruct (workers s) as [|w ws]; simpl in Hlen; [lia|].
        apply Forall_cons_1 in Hex as [-> _]. apply elem_of_cons. by left. }
      destruct (cancelled s) as [e|] eqn:Hc.
      * exists FeedStop. eexists. split; [done|]. simpl.
        unfold feed_stop. by rewrite Hst, Hi, Hc.
      * pose proof (inv_exit _ _ HD Hc Hin). congruence.
    + exists FeedClose. eexists. split; [done|]. simpl.
      unfold feed_close. by rewrite Hst, Hi.
  - right. apply forallb_false_lookup in Hall as (w & x & Hw & Hx).
    destruct x as [|i x|i x|i y|]; [| | | |done].
    + destruct (fstatus (feeder s)) eqn:Hst.
      * destruct (inputs !! next (feeder s)) as [x|] eqn:Hi.
        -- exists (Feed w). eexists. split; [done|]. simpl.
           unfold feed. by rewrite Hst, Hi, Hw.
        -- exists FeedClose. eexists. split; [done|]. simpl.
           unfold feed_close. by rewrite Hst, Hi.
      * exists (WorkerClosed w). eexists. split; [done|]. simpl.
        unfold worker_closed. by rewrite Hst, Hw.
      * destruct (inv_stopped _ HF Hst) as [[e He] _].
        exists (WorkerDone w). eexists. split; [done|]. simpl.
        unfold worker_done. by rewrite He, Hw.
    + exists (WorkerCheck w). eexists. split; [done|]. simpl.
      unfold worker_check. by rewrite Hw.
    + exists (WorkerCall w). eexists. split; [done|]. simpl.
      unfold worker_call. by rewrite Hw.
    + assert (results_closed s = false) as Hcl.
      { destruct (results_closed s) eqn:E; [|done].
        by apply (Forall_lookup_1 _ _ _ _ (inv_rclosed _ _ HD E)) in Hw. }
      pose proof (held_lookup_length _ _ _ Hw) as Hh. simpl in Hh.
      exists (WorkerSend w). eexists. split; [done|]. simpl.
      unfold worker_send. rewrite Hw, Hcl, bool_decide_eq_true_2 by lia. done.
Qed.

Lemma can_finish W (n : nat) :
  (1 ≤ W)%Z →
  ∀ ls s, fuel s ≤ n → exec W ls = Some s →
  ∃ ls' s', existsb is_cancel ls' = false ∧ run ls' s = Some s' ∧ all_done s'.
Proof.
  intros HW. induction n as [|n IH]; intros ls s Hfuel Hex;
    pose proof (exec_Inv _ _ _ Hex) as HI;
    (destruct (done_or_step W s HW HI) as [Hd | (l & s1 & Hl & Hst)];
       [by exists [], s|]);
    pose proof (step_fuel _ _ _ Hst) as Hlt; [lia|].
  destruct (IH (ls ++ [l]) s1) as (ls' & s' & Hnc & Hrun & Hd);
    [lia | by eapply exec_snoc |].
  exists (l :: ls'), s'. simpl. by rewrite Hst, Hl.
Qed.

(** With at least one worker no goroutine of [Run] is leaked, cancelled or
    not: from every state the goroutines can run on, without any help from
    the context, until the call has returned, every worker has returned,
    [results] is closed and the feeder has finished; and a state in which
    none of them can move is such a state. *)
Theorem no_goroutine_leak (W : Z) (ls : list Label) (s : State) :
  (1 ≤ W)%Z → exec W ls = Some s →
  (∃ ls' s', existsb is_cancel ls' = false ∧ run ls' s = Some s'
             ∧ all_done s')
  ∧ (quiescent s → all_done s).
Proof.
  intros HW Hex. split; [by eapply (can_finish W (fuel s))|].
  intros Hq. destruct (done_or_step W s HW (exec_Inv _ _ _ Hex))
    as [Hd | (l & s1 & Hl & Hst)]; [done|].
  rewrite (Hq l Hl) in Hst. done.
Qed.


(** *** One worker: the work function runs in input order *)

(** What the log of calls is while there is a single worker. *)
Definition serial (s : State) : Prop :=
  match workers s with
  | [w] =>
      match w with
      | WGot i _ | WWork i _ =>
          next (feeder s) = S i ∧ calls s = take i inputs
      | WSelect | WSend _ _ => calls s = take (next (feeder s)) inputs
      | WExited =>
          calls s `prefix_of` inputs
          ∧ (cancelled s = None → calls s = take (next (feeder s)) inputs)
      end
  | _ => True
  end.

Lemma single_lookup (w0 : Worker) (w : nat) (x : Worker) :
  [w0] !! w = Some x → w = 0 ∧ x = w0.
Proof. destruct w as [|w]; simpl; [by intros [= ->]|done]. Qed.

Lemma serial_step W l s s' :
  Inv W s → serial s → step l s = Some s' → serial s'.
Proof.
  intros [_ HD _] Hs H. pose proof (inv_worker_ok _ _ HD) as Hok.
  destruct l; step_cases H; unfold serial in *; simpl in *;
    destruct (workers s) as [|w0 [|w1 ws]]; simpl in *; try done;
    try (destruct w as [|[|?]]; done);
    repeat match goal with
    | Hl : [_] !! _ = Some _ |- _ =>
        apply single_lookup in Hl as [-> <-]; simpl in *
    end;
    try exact Hs; try (split; [done | exact Hs]);
    try (split;
         [ first [ rewrite Hs; apply prefix_take
                 | destruct Hs as [_ ->]; apply prefix_take ]
         | first [ intros; congruence | intros _; exact Hs ] ]).
  - (* Cancel *)
    destruct w0; try done. destruct Hs as [? _]. split; [done|]. intros; congruence.
  - (* WorkerCall *)
    destruct Hs as [-> ->]. apply Forall_cons_1 in Hok as [Hi _].
    simpl in Hi. by rewrite (take_S_r _ _ _ Hi).
Qed.

Lemma exec_serial W ls s : exec W ls = Some s → Inv W s ∧ serial s.
Proof.
  revert ls s. apply (exec_invariant (fun s => Inv W s ∧ serial s)).
  - intros s Hs. split.
    + split; eauto using FeederInv_init, DataInv_init, CollectorInv_init.
    + unfold Run_init in Hs. destruct (W <? 0)%Z; [done|].
      injection Hs as <-. unfold serial. simpl.
      by destruct (Z.to_nat W) as [|[|n]].
  - intros l s s' [[HF HD HC] Hs] Hst. split.
    + split; eauto using FeederInv_step, DataInv_step, CollectorInv_step.
    + by eapply (serial_step W).
Qed.

(** The indices collected are all the indices once the call has returned
    without cancellation. *)
Lemma got_complete W s r :
  (1 ≤ W)%Z → Inv W s → cancelled s = None →
  returned (collector s) = Some r →
  got (collector s) ≡ₚ seq 0 (length inputs)
  ∧ tracked s ≡ₚ got (collector s)
  ∧ next (feeder s) = length inputs.
Proof.
  intros HW HI Hc Hr. pose proof HI as [HF HD HC].
  pose proof (inv_all _ _ HD Hc) as Hall.
  pose proof (inv_next _ HF) as Hn.
  assert (got (collector s) ≡ₚ seq 0 (length inputs)) as Hg.
  { destruct r as [o [e|]]; pose proof (inv_ret _ HC _ _ Hr) as Hret;
      simpl in Hret; [destruct Hret; congruence|].
    destruct Hret as [_ [Hlen | [Hcl Hq]]].
    - apply submseteq_length_Permutation.
      + etrans; [apply got_tracked|]. etrans; [apply (inv_sub _ _ HD)|].
        by apply seq_submseteq.
      + rewrite length_seq, <- (inv_collected _ HC). done.
    - pose proof (inv_rclosed _ _ HD Hcl) as Hex.
      unfold tracked in Hall. rewrite held_exited, Hq in Hall by done.
      simpl in Hall. rewrite Hall.
      assert (WExited ∈ workers s) as Hin.
      { pose proof (inv_workers _ _ HD) as Hlen.
        destruct (workers s) as [|w ws]; simpl in Hlen; [lia|].
        apply Forall_cons_1 in Hex as [-> _]. apply elem_of_cons. by left. }
      by rewrite (inv_closed _ HF (inv_exit _ _ HD Hc Hin)). }
  assert (next (feeder s) = length inputs) as Hnext.
  { pose proof (submseteq_length _ _ (got_tracked s)) as H1.
    rewrite Hall, Hg, !length_seq in H1. lia. }
  split; [done|]. split; [|done].
  symmetry. apply submseteq_length_Permutation; [apply got_tracked|].
  rewrite Hall, Hg, !length_seq. lia.
Qed.

(** With one worker [fn] is called on the inputs in their order, without
    gaps: the calls made so far are a prefix of the inputs, and when the
    call returns without cancellation they are exactly the inputs. *)
Theorem single_worker_serial (ls : list Label) (s : State) :
  exec 1 ls = Some s →
  calls s `prefix_of` inputs
  ∧ (∀ r, returned (collector s) = Some r → cancelled s = None →
          calls s = inputs).
Proof.
  intros Hex. destruct (exec_serial _ _ _ Hex) as [HI Hs].
  pose proof HI as [HF HD HC].
  pose proof (inv_workers _ _ HD) as Hlen. unfold serial in Hs.
  destruct (workers s) as [|w [|w1 ws]] eqn:Hws; simpl in Hlen; try lia.
  split.
  - destruct w as [|i x|i x|i y|].
    + rewrite Hs. apply prefix_take.
    + destruct Hs as [_ ->]. apply prefix_take.
    + destruct Hs as [_ ->]. apply prefix_take.
    + rewrite Hs. apply prefix_take.
    + by destruct Hs.
  - intros r Hr Hc.
    destruct (got_complete 1 s r) as (Hg & Ht & Hn); [lia | done..|].
    unfold tracked in Ht. rewrite Hws in Ht. simpl in Ht.
    assert (length (held w ++ []) = 0) as Hh.
    { apply Permutation_length in Ht. rewrite !length_app in Ht.
      rewrite length_app. simpl in *. lia. }
    destruct w; simpl in Hh; try lia.
    + by rewrite Hs, Hn, firstn_all.
    + destruct Hs as [_ Hs]. by rewrite (Hs Hc), Hn, firstn_all.
Qed.

(** *** No worker at all *)

Lemma zero_workers_inv ls s :
  exec 0 ls = Some s →
  workers s = [] ∧ next (feeder s) = 0 ∧ calls s = [] ∧ results s = []
  ∧ got (collector s) = []
  ∧ outputs (collector s) = replicate (length inputs) zero.
Proof.
  revert ls s. apply exec_invariant.
  - intros s [= <-]. done.
  - intros l s s' (Hw & Hn & Hc & Hr & Hg & Ho) Hst.
    destruct l; step_cases Hst; rewrite ?Hw in *; simpl in *; try done.
Qed.

(** With [WithWorkers(0)] the work function is never called and no task is
    handed off; a returned slice that is not nil is all zero values and
    comes with a nil error; and while the context is not done the feeder
    stays blocked on its first hand-off if there is any input. *)
Theorem zero_workers (ls : list Label) (s : State) :
  exec 0 ls = Some s →
  calls s = [] ∧ sent (feeder s) = []
  ∧ (∀ o e, returned (collector s) = Some (o, e) →
       match e with
       | Some err => o = None ∧ cancelled s = Some err
       | None => o = Some (replicate (length inputs) zero)
       end)
  ∧ (inputs ≠ [] → cancelled s = None → fstatus (feeder s) = Feeding).
Proof.
  intros Hex. destruct (zero_workers_inv _ _ Hex) as (Hw & Hn & Hc & Hr & Hg & Ho).
  destruct (exec_Inv _ _ _ Hex) as [HF HD HC].
  split; [done|]. split; [by rewrite (inv_sent _ HF), Hn|]. split.
  - intros o e Hret. pose proof (inv_ret _ HC _ _ Hret) as Hi.
    destruct e as [err|]; [done|]. destruct Hi as [-> _]. by rewrite Ho.
  - intros Hne Hcn. destruct (fstatus (feeder s)) eqn:Hst; [done| |].
    + pose proof (inv_closed _ HF Hst) as Hlen. rewrite Hn in Hlen.
      symmetry in Hlen. by apply length_zero_iff_nil in Hlen.
    + destruct (inv_stopped _ HF Hst) as [[e He] _]. congruence.
Qed.

End Steps.

(** C4 (for the worker counts [Run] accepts).  With no inputs and a worker
    count that is not negative, the first step of the collecting loop
    returns the empty slice and a nil error; nothing else can be returned,
    the loop never waits, no task is handed off and [fn] is never called. *)
Theorem Run_empty (W : Z) :
  (0 ≤ W)%Z →
  (∃ s, exec [] W [CollectReturn] = Some s
        ∧ returned (collector s) = Some (Some [], None))
  ∧ ∀ ls s, exec [] W ls = Some s →
      calls s = [] ∧ sent (feeder s) = []
      ∧ Forall (fun w => held w = []) (workers s)
      ∧ (∀ r, returned (collector s) = Some r → r = (Some [], None))
      ∧ (returned (collector s) = None →
           step [] CollectDone s = None ∧ step [] CollectRecv s = None
           ∧ ∃ s', step [] CollectReturn s = Some s'
                   ∧ returned (collector s') = Some (Some [], None)).
Proof.
  intros HW. split.
  { unfold exec, Run_init. destruct (Z.ltb_spec W 0); [lia|].
    eexists. split; reflexivity. }
  intros ls s Hex. destruct (exec_Inv _ _ _ _ Hex) as [HF HD HC].
  pose proof (inv_next _ _ HF) as Hn. simpl in Hn.
  assert (outputs (collector s) = []) as Hout.
  { apply length_zero_iff_nil. apply (inv_out_len _ _ HC). }
  split; [|split; [|split; [|split]]].
  - pose proof (inv_calls _ _ _ HD) as Hc.
    destruct (calls s) as [|x ?]; [done|].
    apply Forall_cons_1 in Hc as [Hx _]. by apply elem_of_nil in Hx.
  - rewrite (inv_sent _ _ HF).
    assert (next (feeder s) = 0) as -> by lia. done.
  - pose proof (inv_sub _ _ _ HD) as Hs.
    assert (next (feeder s) = 0) as Hz by lia. rewrite Hz in Hs. simpl in Hs.
    apply submseteq_nil_r in Hs. unfold tracked in Hs.
    apply app_eq_nil in Hs as [Hs _].
    apply Forall_forall. intros w Hw.
    destruct (held w) as [|i ?] eqn:Hh; [done|].
    assert (i ∈ workers s ≫= held) as Hi.
    { apply list_elem_of_bind. exists w. rewrite Hh. split; [|done].
      apply elem_of_cons. by left. }
    rewrite Hs in Hi. by apply elem_of_nil in Hi.
  - intros [o e] Hr. pose proof (inv_ret _ _ HC _ _ Hr) as Hret.
    destruct e as [err|].
    + (* the loop is never entered, so the cancellation is never observed *)
      pose proof (error_needs_input _ _ _ _ _ _ Hex Hr) as Hlen.
      simpl in Hlen. lia.
    + destruct Hret as [-> _]. by rewrite Hout.
  - intros Hr. simpl. unfold collect_done, collect_recv, collect_return.
    rewrite Hr. simpl. split; [by destruct (cancelled s)|]. split; [done|].
    eexists. split; [done|]. simpl. by rewrite Hout.
Qed.

End Run.

(** *** Configuration: what [New] and [WithWorkers] give *)

Lemma New_snoc (NumCPU : Z) (opts : list PoolOptionFunc) (fn : PoolOptionFunc) :
  New NumCPU (opts ++ [fn]) = fn (New NumCPU opts).
Proof. unfold New. by rewrite foldl_app. Qed.

Lemma apply_positive (o : PoolOptions) (ns : list Z) :
  (0 < NumWorkers o)%Z → Forall (fun n => (0 < n)%Z) ns →
  (0 < NumWorkers (foldl (fun o fn => fn o) o (WithWorkers <$> ns)))%Z.
Proof.
  intros Ho Hns. revert o Ho.
  induction Hns as [|n ns Hn _ IH]; intros o Ho; simpl; [done|].
  by apply IH.
Qed.

(** C5 (as the code has it).  Without options the worker count is the number
    of logical processors; [WithWorkers n] sets it to [n] whatever [n] is,
    the last option winning; so it is positive when the processor count and
    every supplied value are. *)
Theorem New_workers (NumCPU : Z) :
  NumWorkers (New NumCPU []) = NumCPU
  ∧ (∀ opts n, NumWorkers (New NumCPU (opts ++ [WithWorkers n])) = n)
  ∧ (∀ ns, (0 < NumCPU)%Z → Forall (fun n => (0 < n)%Z) ns →
           (0 < NumWorkers (New NumCPU (WithWorkers <$> ns)))%Z).
Proof.
  split; [done|]. split.
  - intros opts n. by rewrite New_snoc.
  - intros ns Hcpu Hns. unfold New. by apply apply_positive.
Qed.

Lemma New_workers_witness :
  NumWorkers (New 8 []) = 8%Z
  ∧ (∀ opts n, NumWorkers (New 8 (opts ++ [WithWorkers n])) = n)
  ∧ (∀ ns, (0 < 8)%Z → Forall (fun n => (0 < n)%Z) ns →
           (0 < NumWorkers (New 8 (WithWorkers <$> ns)))%Z).
Proof. apply (New_workers 8). Defined.

(** On eight processors, [New(WithWorkers(0))] has zero workers and
    [New(WithWorkers(-1))] has minus one: neither the processor count nor a
    positive number. *)
Lemma WithWorkers_not_positive :
  NumWorkers (New 8 [WithWorkers 0]) = 0%Z
  ∧ NumWorkers (New 8 [WithWorkers (-1)]) = (-1)%Z.
Proof. split; reflexivity. Qed.

(** *** Concrete runs *)

Definition square (x : Z) : Z := (x * x)%Z.

(** Scenario A: inputs 1, 2, 3, 4, two workers, results arriving in the
    order 1, 0, 2, 3 of their indices. *)
Definition scenario_A : list Label :=
  [ Feed 0; Feed 1;
    WorkerCheck 1; WorkerCall 1; WorkerSend 1; CollectRecv;
    Feed 1;
    WorkerCheck 0; WorkerCall 0; WorkerSend 0;
    WorkerCheck 1; WorkerCall 1; WorkerSend 1;
    Feed 0; WorkerCheck 0; WorkerCall 0; WorkerSend 0;
    FeedClose;
    CollectRecv; CollectRecv; CollectRecv; CollectReturn ].

Lemma Run_ordered_witness :
  ∃ s, exec 0%Z square [1; 2; 3; 4]%Z 2 scenario_A = Some s
       ∧ got (collector s) = [1; 0; 2; 3]
       ∧ returned (collector s) = Some (Some [1; 4; 9; 16]%Z, None).
Proof.
  eexists. split; [vm_compute; reflexivity|]. split; [reflexivity|].
  match goal with |- returned (collector ?s) = _ =>
    destruct (Run_ordered 0%Z square [1; 2; 3; 4]%Z 2 scenario_A s)
      as (_ & Hr & _); [lia | vm_compute; reflexivity | reflexivity |]
  end.
  rewrite (Hr _ eq_refl). reflexivity.
Defined.

(** The context is cancelled before anything else happens and the
    collecting loop sees it: [Run] returns a nil slice, not one of length 1. *)
Lemma cancel_returns_nil :
  ∃ s, exec 0%Z square [7]%Z 1 [Cancel Canceled; CollectDone] = Some s
       ∧ cancelled s = Some Canceled
       ∧ collected (collector s) = 0
       ∧ returned (collector s) = Some (None, Some Canceled).
Proof. eexists. split; [vm_compute; reflexivity|]. repeat split. Qed.

(** One result collected, then the deadline passes. *)
Definition deadline_after_one : list Label :=
  [ Feed 0; WorkerCheck 0; WorkerCall 0; WorkerSend 0; CollectRecv;
    Cancel DeadlineExceeded ].

Lemma Run_outcome_witness :
  ∃ s, exec 0%Z square [7; 8]%Z 1 deadline_after_one = Some s
       ∧ got (collector s) = [0]
       ∧ outputs (collector s) = [49; 0]%Z
       ∧ ∃ s', step square [7; 8]%Z CollectDone s = Some s'
               ∧ returned (collector s') = Some (None, Some DeadlineExceeded).
Proof.
  eexists. split; [vm_compute; reflexivity|].
  split; [reflexivity|]. split; [reflexivity|].
  eexists. split; [reflexivity|].
  match goal with |- returned (collector ?s1) = _ =>
    destruct (Run_outcome 0%Z square [7; 8]%Z 1
                (deadline_after_one ++ [CollectDone]) s1) as (_ & Hout);
      [vm_compute; reflexivity|];
    destruct (returned (collector s1)) as [[o e]|] eqn:Hr;
      [|vm_compute in Hr; discriminate];
    vm_compute in Hr; injection Hr as <- <-
  end.
  reflexivity.
Defined.

(** C3, on the code.  With no worker at all, or with the only worker leaving
    on a cancellation the collecting loop does not pick up, [results] is
    closed before the single expected result arrived and line 134 returns
    the zero-filled buffer with a nil error. *)
Theorem closed_early_nil_error :
  (∃ s, exec 0%Z square [7]%Z 0 [CloseResults; CollectRecv] = Some s
        ∧ cancelled s = None ∧ collected (collector s) = 0
        ∧ returned (collector s) = Some (Some [0]%Z, None))
  ∧ (∃ s, exec 0%Z square [7]%Z 1
            [Cancel Canceled; WorkerDone 0; CloseResults; CollectRecv] = Some s
          ∧ collected (collector s) = 0
          ∧ returned (collector s) = Some (Some [0]%Z, None)).
Proof.
  split; eexists; (split; [vm_compute; reflexivity|]); repeat split.
Qed.

(** A negative worker count: [wg.Add] panics, also on the empty input. *)
Lemma Run_negative_workers_panics :
  Run_init 0%Z ([] : list Z) (-1) = None
  ∧ ∀ ls, exec 0%Z square [] (-1) ls = None.
Proof. split; reflexivity. Qed.

Lemma Run_empty_witness :
  (∃ s, exec 0%Z square [] 3 [CollectReturn] = Some s
        ∧ returned (collector s) = Some (Some [], None))
  ∧ ∀ ls s, exec 0%Z square [] 3 ls = Some s →
      calls s = [] ∧ sent (feeder s) = []
      ∧ Forall (fun w => held w = []) (workers s)
      ∧ (∀ r, returned (collector s) = Some r → r = (Some [], None))
      ∧ (returned (collector s) = None →
           step square [] CollectDone s = None
           ∧ step square [] CollectRecv s = None
           ∧ ∃ s', step square [] CollectReturn s = Some s'
                   ∧ returned (collector s') = Some (Some [], None)).
Proof. apply (Run_empty 0%Z square 3). lia. Defined.

(** The feeder stops on the cancellation: [tasks] is not closed then, nor
    later. *)
Lemma stopped_without_close :
  ∃ s, exec 0%Z square [7]%Z 1 [Cancel Canceled; FeedStop] = Some s
       ∧ fstatus (feeder s) = Stopped
       ∧ task_closes (feeder s) = 0
       ∧ ∀ ls' s', run square [7]%Z ls' s = Some s' →
                   task_closes (feeder s') = 0.
Proof.
  eexists. split; [vm_compute; reflexivity|]. repeat split.
  intros ls' s' Hrun.
  match type of Hrun with run _ _ _ ?s0 = _ =>
    assert (exec 0%Z square [7]%Z 1 ([Cancel Canceled; FeedStop] ++ ls') = Some s')
      as Hex by exact Hrun;
    pose proof (stopped_stable square [7]%Z ls' s0 s' Hrun eq_refl) as Hst
  end.
  destruct (exec_Inv _ _ _ _ _ _ Hex) as [HF _ _].
  by rewrite (inv_closes _ _ HF), Hst.
Qed.

Lemma feeder_closes_witness :
  ∃ s, exec 0%Z square [7; 8]%Z 1
         [Feed 0; WorkerCheck 0; WorkerCall 0; WorkerSend 0;
          Feed 0; FeedClose] = Some s
       ∧ task_closes (feeder s) = 1
       ∧ (sent (feeder s)).*2 = [7; 8]%Z.
Proof.
  eexists. split; [vm_compute; reflexivity|].
  match goal with |- task_closes (feeder ?s) = _ ∧ _ =>
    destruct (feeder_closes 0%Z square [7; 8]%Z 1
                [Feed 0; WorkerCheck 0; WorkerCall 0; WorkerSend 0;
                 Feed 0; FeedClose] s)
      as (_ & Hk & _ & _ & _ & _ & Hs); [vm_compute; reflexivity|]
  end.
  split; [by apply Hk | exact Hs].
Defined.

(** *** Concrete runs for the properties of the channels and of the
    goroutines *)

(** One worker has computed the first result and is at its send. *)
Definition at_send : list Label := [ Feed 0; WorkerCheck 0; WorkerCall 0 ].

Lemma channel_safety_witness :
  ∃ s, exec 0%Z square [7; 8]%Z 1 at_send = Some s
       ∧ workers s !! 0 = Some (WSend 0 49%Z)
       ∧ (∀ w i r, workers s !! w = Some (WSend i r) →
            results_closed s = false
            ∧ length (results s) < 2
            ∧ ∃ s', step square [7; 8]%Z (WorkerSend w) s = Some s')
       ∧ length (results s) ≤ 2
       ∧ (∀ i r, (i, r) ∈ results s → i < length (outputs (collector s))).
Proof.
  eexists. split; [vm_compute; reflexivity|]. split; [reflexivity|].
  apply (channel_safety 0%Z square [7; 8]%Z 1 at_send). vm_compute; reflexivity.
Defined.


(** Two workers hold a task each when the context is cancelled and the
    call returns: both workers, the feeder and the closing goroutine can
    still finish. *)
Definition cancelled_midway : list Label :=
  [ Feed 0; Feed 1; WorkerCheck 0; Cancel Canceled; CollectDone ].

Lemma no_goroutine_leak_witness :
  ∃ s, exec 0%Z square [1; 2; 3; 4]%Z 2 cancelled_midway = Some s
       ∧ (∃ ls' s', existsb is_cancel ls' = false
                    ∧ run square [1; 2; 3; 4]%Z ls' s = Some s'
                    ∧ all_done s')
       ∧ (quiescent square [1; 2; 3; 4]%Z s → all_done s).
Proof.
  eexists. split; [vm_compute; reflexivity|].
  apply (no_goroutine_leak 0%Z square [1; 2; 3; 4]%Z 2 cancelled_midway);
    [lia | vm_compute; reflexivity].
Defined.


(** One worker, three inputs, run to the return. *)
Definition serial_run : list Label :=
  [ Feed 0; WorkerCheck 0; WorkerCall 0; WorkerSend 0;
    Feed 0; WorkerCheck 0; WorkerCall 0; WorkerSend 0; CollectRecv;
    Feed 0; WorkerCheck 0; WorkerCall 0; WorkerSend 0;
    CollectRecv; CollectRecv; CollectReturn ].

Lemma single_worker_serial_witness :
  ∃ s, exec 0%Z square [5; 6; 7]%Z 1 serial_run = Some s
       ∧ returned (collector s) = Some (Some [25; 36; 49]%Z, None)
       ∧ calls s = [5; 6; 7]%Z.
Proof.
  eexists. split; [vm_compute; reflexivity|]. split; [reflexivity|].
  match goal with |- calls ?s = _ =>
    destruct (single_worker_serial 0%Z square [5; 6; 7]%Z serial_run s)
      as (_ & Hall); [vm_compute; reflexivity|]
  end.
  exact (Hall _ eq_refl eq_refl).
Defined.

Lemma zero_workers_witness :
  ∃ s, exec 0%Z square [7; 8]%Z 0 [CloseResults; CollectRecv] = Some s
       ∧ calls s = [] ∧ sent (feeder s) = []
       ∧ returned (collector s) = Some (Some [0; 0]%Z, None)
       ∧ fstatus (feeder s) = Feeding.
Proof.
  eexists. split; [vm_compute; reflexivity|].
  match goal with |- calls ?s = _ ∧ _ =>
    destruct (zero_workers 0%Z square [7; 8]%Z [CloseResults; CollectRecv] s)
      as (Hc & Hs & Hr & Hf); [vm_compute; reflexivity|]
  end.
  split; [exact Hc|]. split; [exact Hs|]. split; [reflexivity|].
  apply Hf; [discriminate | reflexivity].
Defined.

End Pool.

(* ===================================================================== *)
(** ** The draft executor without a context                               *)
(* ===================================================================== *)

(** The simplest variant: [Run(inputs []T, fn func(T) R) []R].  Both
    channels are unbuffered, workers range over [tasks], and the caller
    appends the results in the order they arrive. *)
Module Draft.

Section Run.

Context {T R : Type}.
Variable fn : T → R.
Variable inputs : list T.

(** Program point of one worker: [for t := range tasks { out := fn(t.input);
    results <- result{...} }]. *)
Inductive Worker :=
| WRange                          (* waiting on [range tasks] *)
| WWork (idx : nat) (input : T)   (* got a task, before [fn] *)
| WSend (idx : nat) (output : R)  (* at [results <- ...] *)
| WExited.                        (* the range ended, [wg.Done()] has run *)

Record State := mkState {
  next : nat;                     (* loop index of the feeder *)
  tasks_closed : bool;
  workers : list Worker;
  results_closed : bool;
  outputs : list R;               (* [var outputs []R], nil at first *)
  returned : option (list R)
}.

Inductive Label :=
| Feed (w : nat)          (* [tasks <- task] meets worker [w]'s receive *)
| FeedClose               (* [close(tasks)] *)
| WorkerClosed (w : nat)  (* the range over the closed [tasks] ends *)
| WorkerCall (w : nat)    (* [out := fn(t.input)] *)
| Collect (w : nat)       (* worker [w]'s send meets [range results]; append *)
| CloseResults            (* [wg.Wait(); close(results)] *)
| Return.                 (* the range over the closed [results] ends *)

Definition is_exited (w : Worker) : bool :=
  match w with WExited => true | _ => false end.

(** [wg.Add] panics on a negative count; [for range w.NumWorkers] starts no
    worker for zero. *)
Definition Run_init (W : Z) : option State :=
  if (W <? 0)%Z then None
  else Some {| next := 0; tasks_closed := false;
               workers := replicate (Z.to_nat W) WRange;
               results_closed := false; outputs := []; returned := None |}.

Definition set_worker (w : nat) (x : Worker) (s : State) : State :=
  {| next := next s; tasks_closed := tasks_closed s;
     workers := <[w := x]> (workers s);
     results_closed := results_closed s; outputs := outputs s;
     returned := returned s |}.

Definition step (l : Label) (s : State) : option State :=
  match l with
  | Feed w =>
      match tasks_closed s, inputs !! next s, workers s !! w with
      | false, Some x, Some WRange =>
          Some {| next := S (next s); tasks_closed := false;
                  workers := <[w := WWork (next s) x]> (workers s);
                  results_closed := results_closed s; outputs := outputs s;
                  returned := returned s |}
      | _, _, _ => None
      end
  | FeedClose =>
      match tasks_closed s, inputs !! next s with
      | false, None =>
          Some {| next := next s; tasks_closed := true; workers := workers s;
                  results_closed := results_closed s; outputs := outputs s;
                  returned := returned s |}
      | _, _ => None
      end
  | WorkerClosed w =>
      match tasks_closed s, workers s !! w with
      | true, Some WRange => Some (set_worker w WExited s)
      | _, _ => None
      end
  | WorkerCall w =>
      match workers s !! w with
      | Some (WWork i x) => Some (set_worker w (WSend i (fn x)) s)
      | _ => None
      end
  | Collect w =>
      match returned s, results_closed s, workers s !! w with
      | None, false, Some (WSend i r) =>
          Some {| next := next s; tasks_closed := tasks_closed s;
                  workers := <[w := WRange]> (workers s);
                  results_closed := false; outputs := outputs s ++ [r];
                  returned := None |}
      | _, _, _ => None
      end
  | CloseResults =>
      if results_closed s then None
      else if forallb is_exited (workers s)
      then Some {| next := next s; tasks_closed := tasks_closed s;
                   workers := workers s; results_closed := true;
                   outputs := outputs s; returned := returned s |}
      else None
  | Return =>
      match returned s, results_closed s with
      | None, true =>
          Some {| next := next s; tasks_closed := tasks_closed s;
                  workers := workers s; results_closed := true;
                  outputs := outputs s; returned := Some (outputs s) |}
      | _, _ => None
      end
  end.

Fixpoint run (ls : list Label) (s : State) : option State :=
  match ls with
  | [] => Some s
  | l :: ls' => match step l s with Some s' => run ls' s' | None => None end
  end.

Definition exec (W : Z) (ls : list Label) : option State :=
  match Run_init W with Some s => run ls s | None => None end.

(** The result a worker is about to deliver. *)
Definition pending (w : Worker) : list R :=
  match w with
  | WWork _ x => [fn x]
  | WSend _ r => [r]
  | WRange | WExited => []
  end.

Definition worker_fuel (w : Worker) : nat :=
  match w with WRange => 1 | WWork _ _ => 3 | WSend _ _ => 2 | WExited => 0 end.

Definition fuel (s : State) : nat :=
  (if tasks_closed s then 0 else 4 * (length inputs - next s) + 1)
  + sum_list (worker_fuel <$> workers s)
  + (if results_closed s then 0 else 1)
  + (if returned s is None then 1 else 0).

Record Inv (W : Z) (s : State) : Prop := {
  inv_workers : length (workers s) = Z.to_nat W;
  inv_next : next s ≤ length inputs;
  inv_closed : tasks_closed s = true → next s = length inputs;
  inv_exit : WExited ∈ workers s → tasks_closed s = true;
  inv_rclosed : results_closed s = true →
                Forall (fun w => w = WExited) (workers s);
  inv_perm : outputs s ++ (workers s ≫= pending)
             ≡ₚ fn <$> take (next s) inputs;
  inv_order : length (workers s) = 1 →
              outputs s ++ (workers s ≫= pending) = fn <$> take (next s) inputs;
  inv_ret : ∀ o, returned s = Some o →
            o = outputs s ∧ results_closed s = true
}.

Ltac draft_cases H :=
  unfold step, set_worker in H;
  repeat (case_match; try discriminate; simplify_eq);
  try discriminate; simplify_eq; simpl in *.

Lemma draft_pending_insert (ws : list Worker) (w : nat) (old new : Worker) :
  ws !! w = Some old →
  pending old ++ (<[w := new]> ws ≫= pending)
  ≡ₚ pending new ++ (ws ≫= pending).
Proof.
  revert w. induction ws as [|a ws IH]; intros [|w] Hw; simplify_eq/=.
  - by rewrite !(assoc (++)), (comm (++) (pending old)).
  - rewrite !(assoc (++)), (comm (++) (pending old)), <- !(assoc (++)).
    rewrite (IH _ Hw).
    by rewrite !(assoc (++)), (comm (++) (pending a)).
Qed.

Lemma draft_fuel_insert (ws : list Worker) (w : nat) (old new : Worker) :
  ws !! w = Some old →
  sum_list (worker_fuel <$> <[w := new]> ws) + worker_fuel old
  = sum_list (worker_fuel <$> ws) + worker_fuel new.
Proof.
  revert w. induction ws as [|a ws IH]; intros [|w] Hw; simplify_eq/=; [lia|].
  specialize (IH _ Hw). lia.
Qed.

Lemma draft_idle_pending (n : nat) : replicate n WRange ≫= pending = [].
Proof. induction n; simpl; auto. Qed.

Lemma draft_idle_fuel (n : nat) :
  sum_list (worker_fuel <$> replicate n WRange) = n.
Proof. induction n as [|n IH]; simpl; [done|]. by f_equal. Qed.

Lemma draft_exited_pending (ws : list Worker) :
  Forall (fun w => w = WExited) ws → ws ≫= pending = [].
Proof. induction 1 as [|w ws -> _ IH]; simpl; auto. Qed.

(** With a single worker, [w] is that worker. *)
Lemma draft_single (ws : list Worker) (w : nat) (x : Worker) :
  length ws = 1 → ws !! w = Some x → w = 0 ∧ ws = [x].
Proof.
  destruct ws as [|a [|b ws]]; simpl; try done. intros _.
  destruct w as [|w]; simpl; [by intros [= ->]|done].
Qed.

Lemma draft_Inv_init W s : Run_init W = Some s → Inv W s.
Proof.
  unfold Run_init. destruct (W <? 0)%Z; [done|]. intros [= <-].
  split; simpl; try done.
  - by rewrite length_replicate.
  - lia.
  - by intros [? _]%elem_of_replicate.
  - by rewrite draft_idle_pending.
  - by rewrite draft_idle_pending.
Qed.

Lemma draft_Inv_step W l s s' : Inv W s → step l s = Some s' → Inv W s'.
Proof.
  intros HI H. split.
  - (* inv_workers *)
    destruct HI. destruct l; draft_cases H; by rewrite ?length_insert.
  - (* inv_next *)
    destruct HI as [_ Hn _ _ _ _ _ _]. destruct l; draft_cases H; try done.
    match goal with Hi : inputs !! _ = Some _ |- _ =>
      by apply lookup_lt_Some in Hi end.
  - (* inv_closed *)
    destruct HI as [_ Hn Hc _ _ _ _ _]. destruct l; draft_cases H; try done.
    match goal with Hi : inputs !! _ = None |- _ =>
      apply lookup_ge_None in Hi end. intros _. lia.
  - (* inv_exit *)
    destruct HI as [_ _ _ He _ _ _ _]. intros Hex.
    destruct l; draft_cases H; auto;
      apply elem_of_insert_inv in Hex as [?|?]; try done; auto.
  - (* inv_rclosed *)
    destruct HI as [_ _ _ _ Hr _ _ _]. intros Hcl.
    destruct l; draft_cases H; auto; try congruence;
      try (match goal with Hl : workers s !! _ = Some _ |- _ =>
             apply (Forall_lookup_1 _ _ _ _ (Hr Hcl)) in Hl; done end).
    apply Forall_forall. intros x Hx.
    match goal with Hf : forallb _ _ = true |- _ =>
      rewrite forallb_forall in Hf; apply list_elem_of_In, Hf in Hx end.
    by destruct x.
  - (* inv_perm *)
    destruct HI as [_ _ _ _ _ Hp _ _].
    destruct l; draft_cases H; try done;
      match goal with
      | Hw : workers s !! ?w = Some ?old |- context [<[?w := ?new]> (workers s)] =>
          pose proof (draft_pending_insert _ _ _ new Hw) as Hq; simpl in Hq
      end.
    + (* Feed *)
      match goal with Hi : inputs !! _ = Some _ |- _ =>
        rewrite (take_S_r _ _ _ Hi) end.
      rewrite fmap_app, <- Hp, Hq. simpl.
      by rewrite <- Permutation_middle, <- Permutation_cons_append.
    + (* WorkerClosed *) by rewrite Hq.
    + (* WorkerCall *) apply (inj (cons _)) in Hq. by rewrite Hq.
    + (* Collect *)
      rewrite <- Hp, <- Hq, <- (assoc (++)). done.
  - (* inv_order *)
    destruct HI as [_ _ _ _ _ _ Ho _].
    destruct l; draft_cases H; try done; rewrite ?length_insert; intros Hone;
      specialize (Ho Hone);
      match goal with Hw : workers s !! _ = Some _ |- _ =>
        destruct (draft_single _ _ _ Hone Hw) as [-> Hws] end;
      rewrite Hws in *; simpl in *; rewrite ?app_nil_r in *.
    + (* Feed *)
      match goal with Hi : inputs !! _ = Some _ |- _ =>
        rewrite (take_S_r _ _ _ Hi) end.
      by rewrite fmap_app, <- Ho.
    + (* WorkerClosed *) done.
    + (* WorkerCall *) done.
    + (* Collect *) done.
  - (* inv_ret *)
    destruct HI as [_ _ _ _ _ _ _ Hr]. intros o Ho.
    destruct l; draft_cases H; eauto; try discriminate;
      try (destruct (Hr _ Ho); split; congruence).
    by simplify_eq.
Qed.

Lemma draft_exec_Inv W ls s : exec W ls = Some s → Inv W s.
Proof.
  unfold exec. destruct (Run_init W) as [s0|] eqn:E0; [|done].
  apply draft_Inv_init in E0. revert s0 E0.
  induction ls as [|l ls IH]; intros s0 H0; simpl.
  - by intros [= <-].
  - destruct (step l s0) as [s1|] eqn:E1; [|done].
    eauto using draft_Inv_step.
Qed.

Lemma draft_exec_snoc W ls l s s' :
  exec W ls = Some s → step l s = Some s' → exec W (ls ++ [l]) = Some s'.
Proof.
  unfold exec. destruct (Run_init W) as [s0|]; [|done]. revert s0.
  induction ls as [|a ls IH]; intros s0; simpl.
  - intros [= ->] ->. done.
  - destruct (step a s0); [apply IH | done].
Qed.

Lemma draft_step_fuel l s s' : step l s = Some s' → fuel s' < fuel s.
Proof.
  intros H.
  destruct l; draft_cases H; unfold fuel; simpl;
    repeat match goal with
    | Hw : workers s !! ?w = Some ?old |- context [<[?w := ?new]> (workers s)] =>
        pose proof (draft_fuel_insert _ _ _ new Hw); clear Hw
    | Hi : inputs !! _ = Some _ |- _ => apply lookup_lt_Some in Hi
    | Hq : ?x = _ |- context [?x] => rewrite Hq
    end;
    simpl in *; try lia.
Qed.

Lemma draft_run_fuel ls s s' :
  run ls s = Some s' → length ls + fuel s' ≤ fuel s.
Proof.
  revert s. induction ls as [|l ls IH]; intros s; simpl.
  - intros [= <-]. lia.
  - destruct (step l s) as [s1|] eqn:E; [|done]. intros Hr.
    apply IH in Hr. apply draft_step_fuel in E. lia.
Qed.

Lemma draft_exec_length W ls s :
  exec W ls = Some s → length ls ≤ 4 * length inputs + Z.to_nat W + 3.
Proof.
  unfold exec, Run_init. destruct (W <? 0)%Z; [done|].
  intros Hr%draft_run_fuel.
  unfold fuel in Hr at 2. simpl in Hr. rewrite draft_idle_fuel in Hr. lia.
Qed.

Lemma draft_progress W s :
  Inv W s → returned s = None → ∃ l s', step l s = Some s'.
Proof.
  intros HI Hret.
  destruct (results_closed s) eqn:Hcl.
  { exists Return. eexists. simpl. by rewrite Hret, Hcl. }
  destruct (forallb is_exited (workers s)) eqn:Hall.
  { exists CloseResults. eexists. simpl. by rewrite Hcl, Hall. }
  apply forallb_false_lookup in Hall as (w & x & Hw & Hx).
  destruct x as [|i x|i r|]; [| | |done].
  - destruct (tasks_closed s) eqn:Hc.
    + exists (WorkerClosed w). eexists. simpl. by rewrite Hc, Hw.
    + destruct (inputs !! next s) as [x|] eqn:Hi.
      * exists (Feed w). eexists. simpl. by rewrite Hc, Hi, Hw.
      * exists FeedClose. eexists. simpl. by rewrite Hc, Hi.
  - exists (WorkerCall w). eexists. simpl. by rewrite Hw.
  - exists (Collect w). eexists. simpl. by rewrite Hret, Hcl, Hw.
Qed.

Lemma draft_return W s o :
  (1 ≤ W)%Z → Inv W s → returned s = Some o →
  o ≡ₚ fn <$> inputs ∧ (W = 1%Z → o = fn <$> inputs).
Proof.
  intros HW HI Hr. destruct (inv_ret _ _ HI _ Hr) as [-> Hcl].
  pose proof (inv_rclosed _ _ HI Hcl) as Hex.
  pose proof (inv_workers _ _ HI) as Hlen.
  assert (WExited ∈ workers s) as Hin.
  { destruct (workers s) as [|w ws]; simpl in Hlen; [lia|].
    apply Forall_cons_1 in Hex as [-> _]. apply elem_of_cons. by left. }
  pose proof (inv_closed _ _ HI (inv_exit _ _ HI Hin)) as Hn.
  pose proof (inv_perm _ _ HI) as Hp. pose proof (inv_order _ _ HI) as Ho.
  rewrite draft_exited_pending, app_nil_r, Hn, firstn_all in Hp, Ho by done.
  split; [done|]. intros ->. apply Ho. by rewrite Hlen.
Qed.

Lemma draft_can_return W (n : nat) :
  ∀ ls s, fuel s ≤ n → exec W ls = Some s →
  ∃ ls' s', run ls' s = Some s' ∧ is_Some (returned s').
Proof.
  induction n as [|n IH]; intros ls s Hfuel Hex;
    pose proof (draft_exec_Inv _ _ _ Hex) as HI;
    destruct (returned s) as [r|] eqn:Hr;
    try (exists [], s; split; [done|]; rewrite Hr; by eexists).
  - unfold fuel in Hfuel. rewrite Hr in Hfuel. simpl in Hfuel. lia.
  - destruct (draft_progress W s HI Hr) as (l & s1 & Hst).
    pose proof (draft_step_fuel _ _ _ Hst) as Hlt.
    destruct (IH (ls ++ [l]) s1) as (ls' & s' & Hrun & Hret);
      [lia | by eapply draft_exec_snoc |].
    exists (l :: ls'), s'. simpl. by rewrite Hst.
Qed.

(** *** What is left running, and the sends *)

(** When the draft [Run] returns with at least one worker, nothing of the
    call is left running: every worker has returned, [tasks] is closed with
    all inputs fed, [results] is closed, and no goroutine can take a
    step. *)
Theorem draft_torn_down (W : Z) (ls : list Label) (s : State) (o : list R) :
  (1 ≤ W)%Z → exec W ls = Some s → returned s = Some o →
  Forall (fun w => w = WExited) (workers s)
  ∧ tasks_closed s = true ∧ next s = length inputs
  ∧ results_closed s = true
  ∧ ∀ l, step l s = None.
Proof.
  intros HW Hex Hr. pose proof (draft_exec_Inv _ _ _ Hex) as HI.
  destruct (inv_ret _ _ HI _ Hr) as [_ Hcl].
  pose proof (inv_rclosed _ _ HI Hcl) as Hall.
  pose proof (inv_workers _ _ HI) as Hlen.
  assert (WExited ∈ workers s) as Hin.
  { destruct (workers s) as [|w ws]; simpl in Hlen; [lia|].
    apply Forall_cons_1 in Hall as [-> _]. apply elem_of_cons. by left. }
  pose proof (inv_exit _ _ HI Hin) as Htc.
  split; [done|]. split; [done|]. split; [by apply (inv_closed _ _ HI)|].
  split; [done|].
  intros l. destruct (step l s) as [s'|] eqn:E; [|done]. exfalso.
  destruct l; draft_cases E;
    try match goal with Hw : workers s !! _ = Some _ |- _ =>
      apply (Forall_lookup_1 _ _ _ _ Hall) in Hw end;
    congruence.
Qed.

(** A worker of the draft [Run] that is at its send finds [results] open
    and the caller still ranging over it: the send does not panic and can
    be received at once. *)
Theorem draft_send_served (W : Z) (ls : list Label) (s : State)
    (w i : nat) (r : R) :
  exec W ls = Some s → workers s !! w = Some (WSend i r) →
  results_closed s = false ∧ returned s = None
  ∧ ∃ s', step (Collect w) s = Some s' ∧ outputs s' = outputs s ++ [r].
Proof.
  intros Hex Hw. pose proof (draft_exec_Inv _ _ _ Hex) as HI.
  assert (results_closed s = false) as Hcl.
  { destruct (results_closed s) eqn:E; [|done].
    by apply (Forall_lookup_1 _ _ _ _ (inv_rclosed _ _ HI E)) in Hw. }
  assert (returned s = None) as Hr.
  { destruct (returned s) as [o|] eqn:E; [|done].
    destruct (inv_ret _ _ HI _ E). congruence. }
  split; [done|]. split; [done|]. eexists. simpl.
  by rewrite Hr, Hcl, Hw.
Qed.

Lemma draft_zero_inv ls s :
  exec 0 ls = Some s → workers s = [] ∧ next s = 0 ∧ outputs s = []
  ∧ (inputs ≠ [] → tasks_closed s = false).
Proof.
  unfold exec. simpl.
  set (s0 := {| next := 0; tasks_closed := false; workers := [];
                results_closed := false; outputs := []; returned := None |}).
  assert (workers s0 = [] ∧ next s0 = 0 ∧ outputs s0 = []
          ∧ (inputs ≠ [] → tasks_closed s0 = false)) as H0 by done.
  revert H0. generalize s0. clear s0.
  induction ls as [|l ls IH]; intros s0 H0; simpl.
  - by intros [= <-].
  - destruct (step l s0) as [s1|] eqn:E; [|done]. apply IH. clear IH.
    destruct H0 as (Hw & Hn & Ho & Ht).
    destruct l; draft_cases E; rewrite ?Hw in *; simpl in *; try done.
    repeat split; try done. intros Hne.
    match goal with Hi : inputs !! _ = None |- _ =>
      rewrite Hn in Hi; destruct inputs; [done|discriminate] end.
Qed.

(** With zero workers the draft [Run] returns the nil slice whatever the
    inputs are, [fn] is never reached, and with any input the feeder stays
    blocked on its first hand-off for ever: [tasks] is never closed. *)
Theorem draft_zero_workers (ls : list Label) (s : State) :
  exec 0 ls = Some s →
  workers s = [] ∧ next s = 0
  ∧ (∀ o, returned s = Some o → o = [])
  ∧ (inputs ≠ [] → tasks_closed s = false)
  ∧ ∃ ls' s', run ls' s = Some s' ∧ returned s' = Some [].
Proof.
  intros Hex. destruct (draft_zero_inv _ _ Hex) as (Hw & Hn & Ho & Ht).
  pose proof (draft_exec_Inv _ _ _ Hex) as HI.
  split; [done|]. split; [done|]. split; [|split].
  - intros o Hr. destruct (inv_ret _ _ HI _ Hr) as [-> _]. done.
  - done.
  - destruct (returned s) as [o|] eqn:Hr.
    + exists [], s. split; [done|].
      destruct (inv_ret _ _ HI _ Hr) as [-> _]. by rewrite Hr, Ho.
    + destruct (results_closed s) eqn:Hcl.
      * exists [Return]. eexists. simpl. rewrite Hr, Hcl. split; [done|].
        simpl. by rewrite Ho.
      * exists [CloseResults; Return]. eexists. simpl.
        rewrite Hcl, Hw. simpl. rewrite Hr. split; [done|]. simpl.
        by rewrite Ho.
Qed.

End Run.

Definition square (x : Z) : Z := (x * x)%Z.

(** Two workers, two inputs: the second result is collected first. *)
Definition overtaking : list Label :=
  [ Feed 0; Feed 1; WorkerCall 0; WorkerCall 1; Collect 1; Collect 0;
    FeedClose; WorkerClosed 0; WorkerClosed 1; CloseResults; Return ].

(** C8.  With at least one worker every execution of the draft [Run] is
    finite and can always be run on to its return; what is returned has the
    length of the inputs and is a permutation of [fn] over the inputs, and
    with exactly one worker it is [fn] over the inputs in order.  With two
    workers an execution returns 4, 1 for the inputs 1, 2 and [fn] the
    square: element [i] need not be [fn inputs[i]]. *)
Theorem Run_permutes {T R : Type} (fn : T → R) (inputs : list T)
    (W : Z) (ls : list Label) (s : State) :
  (1 ≤ W)%Z → exec fn inputs W ls = Some s →
  length ls ≤ 4 * length inputs + Z.to_nat W + 3
  ∧ (∃ ls' s', run fn inputs ls' s = Some s' ∧ is_Some (returned s'))
  ∧ (∀ o, returned s = Some o →
       length o = length inputs ∧ o ≡ₚ fn <$> inputs
       ∧ (W = 1%Z → o = fn <$> inputs))
  ∧ (∃ s2, exec square [1; 2]%Z 2 [] = Some s2
           ∧ ∃ s3, run square [1; 2]%Z overtaking s2 = Some s3
                   ∧ returned s3 = Some [4; 1]%Z
                   ∧ [4; 1]%Z ≠ square <$> [1; 2]%Z).
Proof.
  intros HW Hex. split; [by eapply draft_exec_length|]. split.
  { by eapply (draft_can_return fn inputs W (fuel inputs s)). }
  split.
  - intros o Hr.
    destruct (draft_return fn inputs W s o HW) as [Hp Ho];
      [by eapply draft_exec_Inv | done |].
    split; [by rewrite Hp, length_fmap|]. by split.
  - eexists. split; [reflexivity|]. eexists. split; [reflexivity|].
    split; [reflexivity|]. discriminate.
Qed.

(** One worker, inputs 1 and 2, run to the return. *)
Definition one_worker : list Label :=
  [ Feed 0; WorkerCall 0; Collect 0; Feed 0; WorkerCall 0; Collect 0;
    FeedClose; WorkerClosed 0; CloseResults; Return ].

Lemma Run_permutes_witness :
  ∃ s, exec square [1; 2]%Z 1 one_worker = Some s
       ∧ returned s = Some [1; 4]%Z.
Proof.
  eexists. split; [vm_compute; reflexivity|].
  match goal with |- returned ?s = _ =>
    destruct (Run_permutes square [1; 2]%Z 1 one_worker s)
      as (_ & _ & Hret & _); [lia | vm_compute; reflexivity |];
    destruct (Hret [1; 4]%Z eq_refl) as (_ & _ & Ho)
  end.
  exact (f_equal Some (Ho eq_refl)).
Defined.

Lemma draft_torn_down_witness :
  ∃ s, exec square [1; 2]%Z 1 one_worker = Some s
       ∧ Forall (fun w => w = WExited) (workers s)
       ∧ tasks_closed s = true ∧ next s = 2
       ∧ results_closed s = true
       ∧ ∀ l, step square [1; 2]%Z l s = None.
Proof.
  eexists. split; [vm_compute; reflexivity|].
  apply (draft_torn_down square [1; 2]%Z 1 one_worker _ [1; 4]%Z);
    [lia | vm_compute; reflexivity | reflexivity].
Defined.

Lemma draft_send_served_witness :
  ∃ s, exec square [1; 2]%Z 2 [Feed 1; WorkerCall 1] = Some s
       ∧ results_closed s = false ∧ returned s = None
       ∧ ∃ s', step square [1; 2]%Z (Collect 1) s = Some s'
               ∧ outputs s' = outputs s ++ [1%Z].
Proof.
  eexists. split; [vm_compute; reflexivity|].
  apply (draft_send_served square [1; 2]%Z 2 [Feed 1; WorkerCall 1] _ 1 0 1%Z);
    [vm_compute; reflexivity | reflexivity].
Defined.

Lemma draft_zero_workers_witness :
  ∃ s, exec square [1; 2]%Z 0 [CloseResults; Return] = Some s
       ∧ returned s = Some []
       ∧ tasks_closed s = false ∧ next s = 0.
Proof.
  eexists. split; [vm_compute; reflexivity|].
  match goal with |- returned ?s = _ ∧ _ =>
    destruct (draft_zero_workers square [1; 2]%Z [CloseResults; Return] s)
      as (_ & Hn & Hr & Ht & _); [vm_compute; reflexivity|]
  end.
  split; [exact (f_equal Some (Hr [] eq_refl))|].
  split; [by apply Ht | exact Hn].
Defined.

End Draft.

(* ===================================================================== *)
(** ** The draft executor that reports incomplete results                 *)
(* ===================================================================== *)

(** The other context-aware draft of [Run]: the caller ranges over
    [results] until it is closed and only then looks at [ctx.Err()] and at
    the number of results received. *)
Module Early.

Import Pool (CtxErr, Canceled, DeadlineExceeded, FStatus, Feeding, Closed, Stopped).

(** The two errors built with [fmt.Errorf]. *)
Inductive RunErr :=
| ExitedEarly (cause : CtxErr)          (* "worker pool exited early: %w" *)
| Incomplete (received total : nat).    (* "... got %d of %d" *)

Section Run.

Context {T R : Type}.
Variable zero : R.
Variable fn : T → R.
Variable inputs : list T.

Inductive Worker :=
| WSelect                         (* at the outer [select] *)
| WWork (idx : nat) (input : T)   (* pulled a task, before [fn] *)
| WSend (idx : nat) (output : R)  (* at the [select] around the send *)
| WExited.

Record State := mkState {
  cancelled : option CtxErr;
  next : nat;
  fstatus : FStatus;
  workers : list Worker;
  results : list (nat * R);
  results_closed : bool;
  outputs : list R;
  received : nat;
  returned : option (list R * option RunErr)
}.

Inductive Label :=
| Cancel (e : CtxErr)
| FeedStop
| Feed (w : nat)
| FeedClose
| WorkerDone (w : nat)
| WorkerClosed (w : nat)
| WorkerCall (w : nat)
| WorkerSend (w : nat)
| CloseResults
| Collect.                (* one iteration of [range results], or its end *)

Definition Run_init (W : Z) : option State :=
  if (W <? 0)%Z then None
  else Some {| cancelled := None; next := 0; fstatus := Feeding;
               workers := replicate (Z.to_nat W) WSelect;
               results := []; results_closed := false;
               outputs := replicate (length inputs) zero;
               received := 0; returned := None |}.

Definition set_worker (w : nat) (x : Worker) (s : State) : State :=
  {| cancelled := cancelled s; next := next s; fstatus := fstatus s;
     workers := <[w := x]> (workers s);
     results := results s; results_closed := results_closed s;
     outputs := outputs s; received := received s; returned := returned s |}.

Definition set_feeder (n : nat) (st : FStatus) (s : State) : State :=
  {| cancelled := cancelled s; next := n; fstatus := st;
     workers := workers s;
     results := results s; results_closed := results_closed s;
     outputs := outputs s; received := received s; returned := returned s |}.

(** The checks after the loop: first [ctx.Err()], then the count. *)
Definition final_error (s : State) : option RunErr :=
  match cancelled s with
  | Some e => Some (ExitedEarly e)
  | None =>
      if bool_decide (received s < length inputs)
      then Some (Incomplete (received s) (length inputs))
      else None
  end.

Definition step (l : Label) (s : State) : option State :=
  match l with
  | Cancel e =>
      match cancelled s with
      | None => Some {| cancelled := Some e; next := next s;
                        fstatus := fstatus s; workers := workers s;
                        results := results s;
                        results_closed := results_closed s;
                        outputs := outputs s; received := received s;
                        returned := returned s |}
      | Some _ => None
      end
  | FeedStop =>
      match fstatus s, inputs !! next s, cancelled s with
      | Feeding, Some _, Some _ => Some (set_feeder (next s) Stopped s)
      | _, _, _ => None
      end
  | Feed w =>
      match fstatus s, inputs !! next s, workers s !! w with
      | Feeding, Some x, Some WSelect =>
          Some (set_worker w (WWork (next s) x) (set_feeder (S (next s)) Feeding s))
      | _, _, _ => None
      end
  | FeedClose =>
      match fstatus s, inputs !! next s with
      | Feeding, None => Some (set_feeder (next s) Closed s)
      | _, _ => None
      end
  | WorkerDone w =>
      match cancelled s, workers s !! w with
      | Some _, Some WSelect | Some _, Some (WSend _ _) =>
          Some (set_worker w WExited s)
      | _, _ => None
      end
  | WorkerClosed w =>
      match fstatus s, workers s !! w with
      | Closed, Some WSelect => Some (set_worker w WExited s)
      | _, _ => None
      end
  | WorkerCall w =>
      match workers s !! w with
      | Some (WWork i x) => Some (set_worker w (WSend i (fn x)) s)
      | _ => None
      end
  | WorkerSend w =>
      match workers s !! w with
      | Some (WSend i r) =>
          if results_closed s then None
          else if bool_decide (length (results s) < length inputs)
          then Some {| cancelled := cancelled s; next := next s;
                       fstatus := fstatus s;
                       workers := <[w := WSelect]> (workers s);
                       results := results s ++ [(i, r)];
                       results_closed := false;
                       outputs := outputs s; received := received s;
                       returned := returned s |}
          else None
      | _ => None
      end
  | CloseResults =>
      if results_closed s then None
      else if forallb (fun w => match w with WExited => true | _ => false end)
                      (workers s)
      then Some {| cancelled := cancelled s; next := next s;
                   fstatus := fstatus s; workers := workers s;
                   results := results s; results_closed := true;
                   outputs := outputs s; received := received s;
                   returned := returned s |}
      else None
  | Collect =>
      match returned s, results s with
      | Some _, _ => None
      | None, (i, r) :: q =>
          if bool_decide (i < length (outputs s))
          then Some {| cancelled := cancelled s; next := next s;
                       fstatus := fstatus s; workers := workers s;
                       results := q; results_closed := results_closed s;
                       outputs := <[i := r]> (outputs s);
                       received := S (received s); returned := None |}
          else None
      | None, [] =>
          if results_closed s
          then Some {| cancelled := cancelled s; next := next s;
                       fstatus := fstatus s; workers := workers s;
                       results := []; results_closed := true;
                       outputs := outputs s; received := received s;
                       returned := Some (outputs s, final_error s) |}
          else None
      end
  end.

Fixpoint run (ls : list Label) (s : State) : option State :=
  match ls with
  | [] => Some s
  | l :: ls' => match step l s with Some s' => run ls' s' | None => None end
  end.

Definition exec (W : Z) (ls : list Label) : option State :=
  match Run_init W with Some s => run ls s | None => None end.

(** This draft returns only from the closed, drained [results], always with
    the buffer, and with a nil error only if the context is not done and
    every expected result was received; otherwise the error tells the
    cancellation from the missing results. *)
Lemma early_returns (l : Label) (s s' : State) (r : list R * option RunErr) :
  step l s = Some s' → returned s = None → returned s' = Some r →
  results_closed s = true ∧ results s = []
  ∧ r.1 = outputs s
  ∧ match r.2 with
    | None => cancelled s = None ∧ length inputs ≤ received s
    | Some (ExitedEarly e) => cancelled s = Some e
    | Some (Incomplete n m) =>
        cancelled s = None ∧ n = received s ∧ m = length inputs ∧ n < m
    end.
Proof.
  intros Hst Hnone Hret.
  destruct l; simpl in Hst; unfold set_worker, set_feeder in Hst;
    repeat (case_match; try discriminate; simplify_eq);
    simpl in *; try congruence.
  all: injection Hret as <-; simpl in *; unfold final_error in *.
  all: destruct (cancelled s) as [e|]; try case_bool_decide; simplify_eq.
  all: repeat split; try done; lia.
Qed.

(** *** Invariants of this draft *)

(** The indices received so far are not part of the state; the invariant
    carries them along as [got], extended by each iteration of the range
    loop that stores a result. *)
Definition got_after (l : Label) (s : State) (got : list nat) : list nat :=
  match l, returned s, results s with
  | Collect, None, (i, _) :: _ => got ++ [i]
  | _, _, _ => got
  end.

Definition held (w : Worker) : list nat :=
  match w with
  | WWork i _ | WSend i _ => [i]
  | WSelect | WExited => []
  end.

Definition tracked (s : State) (got : list nat) : list nat :=
  (workers s ≫= held) ++ (results s).*1 ++ got.

Definition worker_ok (w : Worker) : Prop :=
  match w with
  | WWork i x => inputs !! i = Some x
  | WSend i r => fn <$> inputs !! i = Some r
  | WSelect | WExited => True
  end.

Definition worker_fuel (w : Worker) : nat :=
  match w with
  | WSelect => 1 | WWork _ _ => 4 | WSend _ _ => 3 | WExited => 0
  end.

Definition fuel (s : State) : nat :=
  (if cancelled s is None then 1 else 0)
  + (if fstatus s is Feeding then 5 * (length inputs - next s) + 1 else 0)
  + sum_list (worker_fuel <$> workers s)
  + length (results s)
  + (if results_closed s then 0 else 1)
  + (if returned s is None then 1 else 0).

Record Inv (W : Z) (s : State) (got : list nat) : Prop := {
  inv_next : next s ≤ length inputs;
  inv_closed : fstatus s = Closed → next s = length inputs;
  inv_stopped : fstatus s = Stopped → is_Some (cancelled s);
  inv_workers : length (workers s) = Z.to_nat W;
  inv_worker_ok : Forall worker_ok (workers s);
  inv_results_ok : Forall (fun p => fn <$> inputs !! p.1 = Some p.2) (results s);
  inv_sub : tracked s got ⊆+ seq 0 (next s);
  inv_all : cancelled s = None → tracked s got ≡ₚ seq 0 (next s);
  inv_exit : cancelled s = None → WExited ∈ workers s → fstatus s = Closed;
  inv_rclosed : results_closed s = true →
                Forall (fun w => w = WExited) (workers s);
  inv_out_len : length (outputs s) = length inputs;
  inv_out : ∀ i x, inputs !! i = Some x →
            outputs s !! i = Some (if decide (i ∈ got) then fn x else zero);
  inv_received : received s = length got;
  inv_ret : ∀ o e, returned s = Some (o, e) →
            o = outputs s ∧ results_closed s = true ∧ results s = []
            ∧ match e with
              | None => length inputs ≤ received s
              | Some (ExitedEarly c) => cancelled s = Some c
              | Some (Incomplete n m) =>
                  n = received s ∧ m = length inputs ∧ n < m
              end
}.

Ltac early_cases H :=
  unfold step, set_worker, set_feeder in H;
  repeat (case_match; try discriminate; simplify_eq);
  try discriminate; simplify_eq; simpl in *.

Lemma early_held_insert (ws : list Worker) (w : nat) (old new : Worker) :
  ws !! w = Some old →
  held old ++ (<[w := new]> ws ≫= held) ≡ₚ held new ++ (ws ≫= held).
Proof.
  revert w. induction ws as [|a ws IH]; intros [|w] Hw; simplify_eq/=.
  - by rewrite !(assoc (++)), (comm (++) (held old)).
  - rewrite !(assoc (++)), (comm (++) (held old)), <- !(assoc (++)).
    rewrite (IH _ Hw).
    by rewrite !(assoc (++)), (comm (++) (held a)).
Qed.

Lemma early_held_idle (n : nat) : replicate n WSelect ≫= held = [].
Proof. induction n; simpl; auto. Qed.

Lemma early_held_exited (ws : list Worker) :
  Forall (fun w => w = WExited) ws → ws ≫= held = [].
Proof. induction 1 as [|w ws -> _ IH]; simpl; auto. Qed.

Lemma early_step_cancelled l s s' :
  step l s = Some s' → cancelled s' = None → cancelled s = None.
Proof. intros H. destruct l; early_cases H; intros; congruence. Qed.

Lemma early_tracked_step l s s' got :
  step l s = Some s' →
  (next s' = next s ∧ tracked s' (got_after l s got) ≡ₚ tracked s got)
  ∨ (next s' = S (next s)
     ∧ tracked s' (got_after l s got) ≡ₚ next s :: tracked s got)
  ∨ (next s' = next s ∧ is_Some (cancelled s')
     ∧ ∃ i, i :: tracked s' (got_after l s got) ≡ₚ tracked s got).
Proof.
  intros H. unfold tracked, got_after.
  destruct l; early_cases H; try (left; split; done);
    match goal with
    | Hw : workers s !! ?w = Some ?old |- context [<[?w := ?new]> (workers s)] =>
        pose proof (early_held_insert _ _ _ new Hw) as Hp; simpl in Hp
    | _ => idtac
    end.
  all: try (right; left; split; [done|]; by rewrite Hp).
  all: try (left; split; [done|]; by rewrite ?Hp).
  all: try (left; split; [done|]; by apply (inj (cons _))).
  all: try (right; right; split; [done|]; split; [by eauto|];
            eexists; rewrite <- Hp; simpl; reflexivity).
  all: left; split; [done|].
  - (* WorkerCall *) apply (inj (cons idx)) in Hp. by rewrite Hp.
  - (* WorkerSend *)
    rewrite <- Hp, fmap_app. simpl.
    rewrite <- !(assoc (++)). simpl.
    by rewrite !Permutation_middle.
  - (* Collect *)
    apply Permutation_app_head.
    by rewrite (assoc (++)), <- Permutation_cons_append.
Qed.

Lemma early_Inv_init W s : Run_init W = Some s → Inv W s [].
Proof.
  unfold Run_init. destruct (W <? 0)%Z; [done|]. intros [= <-].
  split; simpl; try done.
  - lia.
  - by rewrite length_replicate.
  - by apply Forall_replicate.
  - unfold tracked. simpl. by rewrite early_held_idle.
  - intros _. unfold tracked. simpl. by rewrite early_held_idle.
  - by intros _ [? _]%elem_of_replicate.
  - by rewrite length_replicate.
  - intros i x Hi. apply lookup_replicate_2. by eapply lookup_lt_Some.
Qed.

Lemma early_Inv_step W l s s' got :
  Inv W s got → step l s = Some s' → Inv W s' (got_after l s got).
Proof.
  intros HI H.
  pose proof (early_tracked_step _ _ _ got H) as Ht.
  pose proof (early_step_cancelled _ _ _ H) as Hcn.
  split.
  - (* inv_next *)
    clear Ht Hcn. destruct HI. destruct l; early_cases H; try done.
    match goal with Hi : inputs !! _ = Some _ |- _ =>
      by apply lookup_lt_Some in Hi end.
  - (* inv_closed *)
    clear Ht Hcn. destruct HI as [Hn Hc _ _ _ _ _ _ _ _ _ _ _ _].
    destruct l; early_cases H; try done.
    match goal with Hi : inputs !! _ = None |- _ =>
      apply lookup_ge_None in Hi end. intros _. lia.
  - (* inv_stopped *)
    clear Ht Hcn. destruct HI as [_ _ Hs _ _ _ _ _ _ _ _ _ _ _].
    destruct l; early_cases H; try done; eauto.
  - (* inv_workers *)
    clear Ht Hcn. destruct HI.
    destruct l; early_cases H; by rewrite ?length_insert.
  - (* inv_worker_ok *)
    clear Ht Hcn. destruct HI as [_ _ _ _ Hw _ _ _ _ _ _ _ _ _].
    destruct l; early_cases H; try done; apply Forall_insert; try done;
      match goal with Hl : workers s !! _ = Some _ |- _ =>
        apply (Forall_lookup_1 _ _ _ _ Hw) in Hl; simpl in Hl end;
      try done.
    simpl. by match goal with Hi : inputs !! _ = Some _ |- _ => rewrite Hi end.
  - (* inv_results_ok *)
    clear Ht Hcn. destruct HI as [_ _ _ _ Hw Hr _ _ _ _ _ _ _ _].
    destruct l; early_cases H; try done.
    + apply Forall_app. split; [done|]. apply Forall_singleton. simpl.
      match goal with Hl : workers s !! _ = Some _ |- _ =>
        by apply (Forall_lookup_1 _ _ _ _ Hw) in Hl end.
    + by apply Forall_cons_1 in Hr as [_ ?].
  - (* inv_sub *)
    destruct HI as [_ _ _ _ _ _ Hs _ _ _ _ _ _ _].
    destruct Ht as [[-> Hp] | [[-> Hp] | (-> & _ & i & Hp)]].
    + by rewrite Hp.
    + rewrite Hp, seq_S. simpl. rewrite <- Permutation_cons_append.
      by apply submseteq_skip.
    + trans (i :: tracked s' (got_after l s got));
        [by apply submseteq_cons | by rewrite Hp].
  - (* inv_all *)
    destruct HI as [_ _ _ _ _ _ _ Ha _ _ _ _ _ _].
    intros Hc'. specialize (Ha (Hcn Hc')).
    destruct Ht as [[-> Hp] | [[-> Hp] | (-> & [e He] & _)]].
    + by rewrite Hp.
    + rewrite Hp, seq_S. simpl. by rewrite <- Permutation_cons_append, Ha.
    + congruence.
  - (* inv_exit *)
    clear Ht. destruct HI as [_ _ _ _ _ _ _ _ He _ _ _ _ _]. intros Hc' Hex.
    specialize (He (Hcn Hc')).
    destruct l; early_cases H; try done; auto; try congruence;
      try (apply elem_of_insert_inv in Hex as [?|?]; [done|]; auto).
  - (* inv_rclosed *)
    clear Ht Hcn. destruct HI as [_ _ _ _ _ _ _ _ _ Hr _ _ _ _]. intros Hcl.
    destruct l; early_cases H; auto; try congruence;
      try (match goal with Hl : workers s !! _ = Some _ |- _ =>
             apply (Forall_lookup_1 _ _ _ _ (Hr Hcl)) in Hl; done end).
    apply Forall_forall. intros x Hx.
    match goal with Hf : forallb _ _ = true |- _ =>
      rewrite forallb_forall in Hf; apply list_elem_of_In, Hf in Hx end.
    by destruct x.
  - (* inv_out_len *)
    clear Ht Hcn. destruct HI.
    destruct l; early_cases H; by rewrite ?length_insert.
  - (* inv_out *)
    clear Ht Hcn. destruct HI as [_ _ _ _ _ Hr _ _ _ _ Hlen Ho _ _].
    unfold got_after.
    destruct l; early_cases H; try done.
    intros j x Hj.
    apply Forall_cons_1 in Hr as [Hr _]. simpl in Hr.
    match goal with Hb : bool_decide (_ < length (outputs _)) = true |- _ =>
      apply bool_decide_eq_true in Hb end.
    destruct (decide (j = n)) as [->|Hne].
    + rewrite list_lookup_insert_eq by done.
      rewrite decide_True
        by (apply elem_of_app; right; apply list_elem_of_singleton; done).
      rewrite Hj in Hr. simpl in Hr. congruence.
    + rewrite list_lookup_insert_ne by done. rewrite (Ho _ _ Hj).
      f_equal. destruct (decide (j ∈ got)) as [Hin|Hin].
      * rewrite decide_True; [done|]. apply elem_of_app. by left.
      * rewrite decide_False; [done|].
        rewrite elem_of_app, list_elem_of_singleton. tauto.
  - (* inv_received *)
    clear Ht Hcn. destruct HI as [_ _ _ _ _ _ _ _ _ _ _ _ Hc _].
    unfold got_after.
    destruct l; early_cases H; try done.
    rewrite length_app. simpl. lia.
  - (* inv_ret *)
    clear Ht Hcn. destruct HI as [_ _ _ _ _ _ _ _ _ Hrc _ _ _ Hret].
    destruct l; early_cases H; intros o oe Hr'; simpl in *;
      try discriminate;
      try (specialize (Hret _ _ Hr');
           destruct Hret as (? & ? & ? & He); repeat split; try done;
           try congruence;
           destruct oe as [[c|n m]|]; try done; congruence).
    simplify_eq. repeat split; try done.
    unfold final_error.
    destruct (cancelled s) as [c|]; [done|].
    case_bool_decide; simpl; [repeat split; lia | lia].
Qed.

Lemma early_run_Inv W ls s s' got :
  Inv W s got → run ls s = Some s' → ∃ got', Inv W s' got'.
Proof.
  revert s got. induction ls as [|l ls IH]; intros s got HI; simpl.
  - intros [= <-]. eauto.
  - destruct (step l s) as [s1|] eqn:E; [|done].
    eauto using early_Inv_step.
Qed.

Lemma early_exec_Inv W ls s : exec W ls = Some s → ∃ got, Inv W s got.
Proof.
  unfold exec. destruct (Run_init W) as [s0|] eqn:E0; [|done].
  eauto using early_run_Inv, early_Inv_init.
Qed.

Lemma early_exec_snoc W ls l s s' :
  exec W ls = Some s → step l s = Some s' → exec W (ls ++ [l]) = Some s'.
Proof.
  unfold exec. destruct (Run_init W) as [s0|]; [|done]. revert s0.
  induction ls as [|a ls IH]; intros s0; simpl.
  - intros [= ->] ->. done.
  - destruct (step a s0); [apply IH | done].
Qed.

Lemma early_fuel_insert (ws : list Worker) (w : nat) (old new : Worker) :
  ws !! w = Some old →
  sum_list (worker_fuel <$> <[w := new]> ws) + worker_fuel old
  = sum_list (worker_fuel <$> ws) + worker_fuel new.
Proof.
  revert w. induction ws as [|a ws IH]; intros [|w] Hw; simplify_eq/=; [lia|].
  specialize (IH _ Hw). lia.
Qed.

Lemma early_fuel_idle (n : nat) :
  sum_list (worker_fuel <$> replicate n WSelect) = n.
Proof. induction n as [|n IH]; simpl; [done|]. by f_equal. Qed.

Lemma early_step_fuel l s s' : step l s = Some s' → fuel s' < fuel s.
Proof.
  intros H.
  destruct l; early_cases H; unfold fuel; simpl;
    repeat match goal with
    | Hw : workers s !! ?w = Some ?old |- context [<[?w := ?new]> (workers s)] =>
        pose proof (early_fuel_insert _ _ _ new Hw); clear Hw
    | Hi : inputs !! _ = Some _ |- _ => apply lookup_lt_Some in Hi
    | Hq : ?x = _ |- context [?x] => rewrite Hq
    end;
    simpl in *; rewrite ?length_app; simpl; try lia.
Qed.

Lemma early_run_fuel ls s s' :
  run ls s = Some s' → length ls + fuel s' ≤ fuel s.
Proof.
  revert s. induction ls as [|l ls IH]; intros s; simpl.
  - intros [= <-]. lia.
  - destruct (step l s) as [s1|] eqn:E; [|done]. intros Hr.
    apply IH in Hr. apply early_step_fuel in E. lia.
Qed.

Lemma early_exec_length W ls s :
  exec W ls = Some s → length ls ≤ 5 * length inputs + Z.to_nat W + 4.
Proof.
  unfold exec, Run_init. destruct (W <? 0)%Z; [done|].
  intros Hr%early_run_fuel.
  unfold fuel in Hr at 2. simpl in Hr. rewrite early_fuel_idle in Hr. lia.
Qed.

Definition is_cancel (l : Label) : bool :=
  match l with Cancel _ => true | _ => false end.

Lemma early_progress W s got :
  Inv W s got → returned s = None →
  ∃ l s', is_cancel l = false ∧ step l s = Some s'.
Proof.
  intros HI Hret.
  destruct (results s) as [|[i r] q] eqn:Hq.
  2: { exists Collect. eexists. split; [done|]. simpl. rewrite Hret, Hq.
       rewrite bool_decide_eq_true_2; [done|].
       pose proof (inv_results_ok _ _ _ HI) as Hr. rewrite Hq in Hr.
       apply Forall_cons_1 in Hr as [Hr _]. simpl in Hr.
       rewrite (inv_out_len _ _ _ HI).
       destruct (inputs !! i) eqn:Hi; [|done]. by eapply lookup_lt_Some. }
  destruct (results_closed s) eqn:Hcl.
  { exists Collect. eexists. split; [done|]. simpl. by rewrite Hret, Hq, Hcl. }
  destruct (forallb (fun w => match w with WExited => true | _ => false end)
                    (workers s)) eqn:Hall.
  { exists CloseResults. eexists. split; [done|]. simpl. by rewrite Hcl, Hall. }
  apply forallb_false_lookup in Hall as (w & x & Hw & Hx).
  destruct x as [|i x|i y|]; [| | |done].
  - destruct (fstatus s) eqn:Hst.
    + destruct (inputs !! next s) as [x|] eqn:Hi.
      * exists (Feed w). eexists. split; [done|]. simpl.
        by rewrite Hst, Hi, Hw.
      * exists FeedClose. eexists. split; [done|]. simpl. by rewrite Hst, Hi.
    + exists (WorkerClosed w). eexists. split; [done|]. simpl.
      by rewrite Hst, Hw.
    + destruct (inv_stopped _ _ _ HI Hst) as [e He].
      exists (WorkerDone w). eexists. split; [done|]. simpl.
      by rewrite He, Hw.
  - exists (WorkerCall w). eexists. split; [done|]. simpl. by rewrite Hw.
  - exists (WorkerSend w). eexists. split; [done|]. simpl.
    rewrite Hw, Hcl, Hq. simpl.
    pose proof (Forall_lookup_1 _ _ _ _ (inv_worker_ok _ _ _ HI) Hw) as Hok.
    simpl in Hok. destruct (inputs !! i) eqn:Hi; [|done].
    apply lookup_lt_Some in Hi.
    rewrite bool_decide_eq_true_2 by lia. done.
Qed.

Lemma early_can_return W (n : nat) :
  ∀ ls s, fuel s ≤ n → exec W ls = Some s →
  ∃ ls' s', existsb is_cancel ls' = false ∧ run ls' s = Some s'
            ∧ is_Some (returned s').
Proof.
  induction n as [|n IH]; intros ls s Hfuel Hex;
    destruct (early_exec_Inv _ _ _ Hex) as [got HI];
    destruct (returned s) as [r|] eqn:Hr;
    try (exists [], s; split; [done|]; split; [done|]; by rewrite Hr).
  - unfold fuel in Hfuel. rewrite Hr in Hfuel. simpl in Hfuel. lia.
  - destruct (early_progress W s got HI Hr) as (l & s1 & Hl & Hst).
    pose proof (early_step_fuel _ _ _ Hst) as Hlt.
    destruct (IH (ls ++ [l]) s1) as (ls' & s' & Hnc & Hrun & Hret);
      [lia | by eapply early_exec_snoc |].
    exists (l :: ls'), s'. simpl. by rewrite Hst, Hl.
Qed.

(** When everything the workers took has arrived, the buffer is the image
    of the inputs. *)
Lemma early_complete W s got :
  Inv W s got → length inputs ≤ received s → outputs s = fn <$> inputs.
Proof.
  intros HI Hlen.
  assert (got ≡ₚ seq 0 (length inputs)) as Hgot.
  { apply submseteq_length_Permutation.
    - trans (tracked s got).
      + unfold tracked. by apply submseteq_inserts_l, submseteq_inserts_l.
      + etrans; [apply (inv_sub _ _ _ HI)|].
        apply seq_submseteq, (inv_next _ _ _ HI).
    - rewrite length_seq, <- (inv_received _ _ _ HI). done. }
  apply list_eq. intros i. rewrite list_lookup_fmap.
  destruct (inputs !! i) as [x|] eqn:Hi; simpl.
  - rewrite (inv_out _ _ _ HI _ _ Hi), decide_True; [done|].
    rewrite Hgot. apply elem_of_seq. apply lookup_lt_Some in Hi. lia.
  - apply lookup_ge_None. rewrite (inv_out_len _ _ _ HI).
    by apply lookup_ge_None in Hi.
Qed.

(** Without cancellation and with a worker, the closed and drained
    [results] has delivered every result. *)
Lemma early_all_received W s got :
  (1 ≤ W)%Z → Inv W s got → cancelled s = None →
  results_closed s = true → results s = [] →
  received s = length inputs.
Proof.
  intros HW HI Hc Hcl Hq.
  pose proof (inv_rclosed _ _ _ HI Hcl) as Hex.
  pose proof (inv_all _ _ _ HI Hc) as Hall.
  unfold tracked in Hall. rewrite early_held_exited, Hq in Hall by done.
  simpl in Hall.
  assert (WExited ∈ workers s) as Hin.
  { pose proof (inv_workers _ _ _ HI) as Hlen.
    destruct (workers s) as [|w ws]; simpl in Hlen; [lia|].
    apply Forall_cons_1 in Hex as [-> _]. apply elem_of_cons. by left. }
  rewrite (inv_received _ _ _ HI), Hall, length_seq.
  apply (inv_closed _ _ _ HI), (inv_exit _ _ _ HI Hc Hin).
Qed.

(** This draft returns the buffer in every case: it has the length of the
    inputs and each slot holds [fn inputs[i]] or still the zero value; a
    nil error means that every slot holds [fn inputs[i]]; the early-exit
    error carries the context's error; and when [Run] returns every worker
    has returned and nothing is left in [results]. *)
Theorem early_outcome (W : Z) (ls : list Label) (s : State)
    (o : list R) (e : option RunErr) :
  exec W ls = Some s → returned s = Some (o, e) →
  length o = length inputs
  ∧ (∀ i x, inputs !! i = Some x → o !! i = Some (fn x) ∨ o !! i = Some zero)
  ∧ (e = None → o = fn <$> inputs)
  ∧ (∀ c, e = Some (ExitedEarly c) → cancelled s = Some c)
  ∧ (∀ n m, e = Some (Incomplete n m) → m = length inputs ∧ n < m)
  ∧ Forall (fun w => w = WExited) (workers s)
  ∧ results s = [].
Proof.
  intros Hex Hr. destruct (early_exec_Inv _ _ _ Hex) as [got HI].
  destruct (inv_ret _ _ _ HI _ _ Hr) as (-> & Hcl & Hq & He).
  split; [apply (inv_out_len _ _ _ HI)|]. split; [|split; [|split; [|split]]].
  - intros i x Hi. rewrite (inv_out _ _ _ HI _ _ Hi).
    destruct (decide (i ∈ got)); auto.
  - intros ->. by eapply early_complete.
  - by intros c ->.
  - intros n m ->. destruct He as (_ & -> & ?). done.
  - split; [by apply (inv_rclosed _ _ _ HI)|done].
Qed.

Lemma early_exec_invariant W (P : State → Prop) :
  (∀ s, Run_init W = Some s → P s) →
  (∀ l s s' got, Inv W s got → P s → step l s = Some s' → P s') →
  ∀ ls s, exec W ls = Some s → P s.
Proof.
  intros Hinit Hstep ls s. unfold exec.
  destruct (Run_init W) as [s0|] eqn:E0; [|done].
  pose proof (early_Inv_init _ _ E0) as HI0.
  specialize (Hinit s0 eq_refl). clear E0.
  revert s0 HI0 Hinit. generalize (@nil nat).
  induction ls as [|l ls IH]; intros got s0 HI0 H0; simpl.
  - by intros [= <-].
  - destruct (step l s0) as [s1|] eqn:E1; [|done].
    apply (IH (got_after l s0 got)); eauto using early_Inv_step.
Qed.

Lemma early_never_incomplete W ls s :
  (1 ≤ W)%Z → exec W ls = Some s →
  ∀ o n m, returned s ≠ Some (o, Some (Incomplete n m)).
Proof.
  intros HW. revert ls s.
  apply (early_exec_invariant W
           (fun s => ∀ o n m, returned s ≠ Some (o, Some (Incomplete n m)))).
  - unfold Run_init. intros s. destruct (W <? 0)%Z; [done|]. by intros [= <-].
  - intros l s s' got HI IH Hst o n m Hr.
    destruct l; early_cases Hst; try (by eapply IH).
    unfold final_error in *.
    destruct (cancelled s) as [c|] eqn:Hc; [done|].
    case_bool_decide as Hlt; [|done].
    rewrite (early_all_received W s got) in Hlt by done. lia.
Qed.

Lemma early_zero_inv ls s :
  exec 0 ls = Some s →
  workers s = [] ∧ next s = 0 ∧ results s = [] ∧ received s = 0
  ∧ outputs s = replicate (length inputs) zero.
Proof.
  revert ls s.
  apply (early_exec_invariant 0
           (fun s => workers s = [] ∧ next s = 0 ∧ results s = []
                     ∧ received s = 0
                     ∧ outputs s = replicate (length inputs) zero)).
  - intros s [= <-]. done.
  - intros l s s' got _ (Hw & Hn & Hr & Hc & Ho) Hst.
    destruct l; early_cases Hst; rewrite ?Hw in *; simpl in *; try done.
Qed.

(** With at least one worker and no cancellation every execution of this
    draft is finite, whatever it returns is [fn] over the inputs, in
    order, with a nil error, and it can always be run on to its return. *)
Theorem early_ordered (W : Z) (ls : list Label) (s : State) :
  (1 ≤ W)%Z → exec W ls = Some s → cancelled s = None →
  length ls ≤ 5 * length inputs + Z.to_nat W + 4
  ∧ (∀ r, returned s = Some r → r = (fn <$> inputs, None))
  ∧ (∃ ls' s', existsb is_cancel ls' = false ∧ run ls' s = Some s'
               ∧ is_Some (returned s')).
Proof.
  intros HW Hex Hc. split; [by eapply early_exec_length|]. split.
  - intros [o e] Hr. destruct (early_exec_Inv _ _ _ Hex) as [got HI].
    destruct (inv_ret _ _ _ HI _ _ Hr) as (-> & Hcl & Hq & He).
    destruct e as [[c|n m]|].
    + congruence.
    + by destruct (early_never_incomplete W ls s HW Hex (outputs s) n m).
    + f_equal. by eapply early_complete.
  - by eapply (early_can_return W (fuel s)).
Qed.

(** The error for missing results is returned only by an executor without
    workers, on a non-empty input, with the untouched buffer; and without
    workers a nil error is returned only on the empty input. *)
Theorem early_incomplete_without_workers (W : Z) (ls : list Label)
    (s : State) (o : list R) (e : option RunErr) :
  exec W ls = Some s → returned s = Some (o, e) →
  (∀ n m, e = Some (Incomplete n m) →
     W = 0%Z ∧ n = 0 ∧ m = length inputs ∧ 0 < m ∧ o = replicate m zero)
  ∧ (W = 0%Z → e = None → inputs = []).
Proof.
  intros Hex Hr. destruct (early_exec_Inv _ _ _ Hex) as [got HI].
  destruct (inv_ret _ _ _ HI _ _ Hr) as (-> & Hcl & Hq & He).
  assert (0 ≤ W)%Z as HW.
  { unfold exec, Run_init in Hex. destruct (Z.ltb_spec W 0); [done|lia]. }
  split.
  - intros n m ->. destruct He as (-> & -> & Hlt).
    destruct (decide (W = 0%Z)) as [->|Hne].
    + destruct (early_zero_inv _ _ Hex) as (_ & _ & _ & Hrec & Ho).
      rewrite Hrec in *. done.
    + exfalso.
      apply (early_never_incomplete W ls s ltac:(lia) Hex (outputs s)
               (received s) (length inputs)).
      done.
  - intros -> ->. destruct (early_zero_inv _ _ Hex) as (_ & _ & _ & Hrec & _).
    rewrite Hrec in He. apply length_zero_iff_nil. lia.
Qed.

(** Whatever the worker count and the context, every execution of this
    draft is finite and the call can always be run on to its return by its
    own goroutines. *)
Theorem early_terminates (W : Z) (ls : list Label) (s : State) :
  exec W ls = Some s →
  length ls ≤ 5 * length inputs + Z.to_nat W + 4
  ∧ ∃ ls' s', existsb is_cancel ls' = false ∧ run ls' s = Some s'
              ∧ is_Some (returned s').
Proof.
  intros Hex. split; [by eapply early_exec_length|].
  by eapply (early_can_return W (fuel s)).
Qed.

End Run.

(** On the input where pool.go returns a nil error this draft returns the
    error for missing results, and the error for the cancellation when the
    only worker left on it. *)
Lemma early_reports_incomplete :
  (∃ s, exec 0%Z Z.succ [7]%Z 0 [CloseResults; Collect] = Some s
        ∧ returned s = Some ([0]%Z, Some (Incomplete 0 1)))
  ∧ (∃ s, exec 0%Z Z.succ [7]%Z 1
            [Cancel Canceled; WorkerDone 0; CloseResults; Collect] = Some s
          ∧ returned s = Some ([0]%Z, Some (ExitedEarly Canceled))).
Proof. split; eexists; (split; [vm_compute; reflexivity|]); reflexivity. Qed.

Definition square (x : Z) : Z := (x * x)%Z.

(** Two workers, three inputs; the last two results overtake the first. *)
Definition early_run : list Label :=
  [ Feed 0; Feed 1; WorkerCall 1; WorkerSend 1; Feed 1;
    WorkerCall 1; WorkerSend 1; WorkerCall 0; WorkerSend 0;
    FeedClose; WorkerClosed 0; WorkerClosed 1; CloseResults;
    Collect; Collect; Collect; Collect ].

Lemma early_ordered_witness :
  ∃ s, exec 0%Z square [3; 4; 5]%Z 2 early_run = Some s
       ∧ returned s = Some ([9; 16; 25]%Z, None).
Proof.
  eexists. split; [vm_compute; reflexivity|].
  match goal with |- returned ?s = _ =>
    destruct (early_ordered 0%Z square [3; 4; 5]%Z 2 early_run s)
      as (_ & Hr & _); [lia | vm_compute; reflexivity | reflexivity |]
  end.
  exact (f_equal Some (Hr _ eq_refl)).
Defined.

(** The context is cancelled while the only worker holds its first result. *)
Definition early_cancelled : list Label :=
  [ Feed 0; WorkerCall 0; WorkerSend 0; Feed 0; WorkerCall 0;
    Cancel Canceled; WorkerDone 0; FeedStop; CloseResults; Collect; Collect ].

Lemma early_outcome_witness :
  ∃ s, exec 0%Z square [3; 4; 5]%Z 1 early_cancelled = Some s
       ∧ returned s = Some ([9; 0; 0]%Z, Some (ExitedEarly Canceled))
       ∧ cancelled s = Some Canceled
       ∧ Forall (fun w => w = WExited) (workers s).
Proof.
  eexists. split; [vm_compute; reflexivity|]. split; [reflexivity|].
  match goal with |- cancelled ?s = _ ∧ _ =>
    destruct (early_outcome 0%Z square [3; 4; 5]%Z 1 early_cancelled s
                [9; 0; 0]%Z (Some (ExitedEarly Canceled)))
      as (_ & _ & _ & Hc & _ & Hw & _); [vm_compute; reflexivity | reflexivity |]
  end.
  split; [by apply Hc | exact Hw].
Defined.

Lemma early_incomplete_without_workers_witness :
  ∃ s, exec 0%Z square [3; 4; 5]%Z 0 [CloseResults; Collect] = Some s
       ∧ returned s = Some ([0; 0; 0]%Z, Some (Incomplete 0 3)).
Proof.
  eexists. split; [vm_compute; reflexivity|].
  match goal with |- returned ?s = _ =>
    destruct (early_incomplete_without_workers 0%Z square [3; 4; 5]%Z 0
                [CloseResults; Collect] s [0; 0; 0]%Z (Some (Incomplete 0 3)))
      as (Hi & _); [vm_compute; reflexivity | reflexivity |];
    destruct (Hi 0 3 eq_refl) as (_ & _ & _ & _ & Ho)
  end.
  reflexivity.
Defined.

Lemma early_terminates_witness :
  ∃ s, exec 0%Z square [3; 4; 5]%Z 1
         [Feed 0; WorkerCall 0; Cancel Canceled] = Some s
       ∧ ∃ ls' s', existsb is_cancel ls' = false
                   ∧ run square [3; 4; 5]%Z ls' s = Some s'
                   ∧ is_Some (returned s').
Proof.
  eexists. split; [vm_compute; reflexivity|].
  apply (early_terminates 0%Z square [3; 4; 5]%Z 1
           [Feed 0; WorkerCall 0; Cancel Canceled]).
  vm_compute; reflexivity.
Defined.

End Early.

(* ===================================================================== *)
(** ** The series example (cmd/example/single_node): ranges and table     *)
(* ===================================================================== *)

Module Chudnovsky.

Local Open Scope Z_scope.

(** [type Task struct { Start int; End int }]; [End] is written [End']. *)
Record Task := mkTask { Start : Z; End' : Z }.

(** [func min(a, b int) int] *)
Definition min (a b : Z) : Z := if a <? b then a else b.

(** The ranges of [k] handed to the pool, for [numTasks = numWorkers * 8]:
<<
  tasks := make([]Task, numTasks)
  chunk := N / numTasks
  remainder := N % numTasks
  for i := 0; i < numTasks; i++ {
    start := i*chunk + min(i, remainder)
    count := chunk
    if i < remainder { count++ }
    tasks[i] = Task{Start: start, End: start + count}
  }
>>
    [make] panics on a negative length and the division on zero. *)
Definition range_of (chunk remainder i : Z) : Task :=
  let start := i * chunk + min i remainder in
  let count := if i <? remainder then chunk + 1 else chunk in
  mkTask start (start + count).

Definition ranges (N numTasks : Z) : option (list Task) :=
  if numTasks <? 0 then None
  else if numTasks =? 0 then None
  else
    let chunk := Z.quot N numTasks in
    let remainder := Z.rem N numTasks in
    Some (range_of chunk remainder <$> seqZ 0 numTasks).

(** The values of [k] a worker visits for a task:
    [for k := t.Start; k < t.End; k++]. *)
Definition visited (t : Task) : list Z := seqZ (Start t) (End' t - Start t).



(** *** The ranges tile [0, N) *)

Lemma ranges_prefix (chunk remainder : Z) (k : nat) :
  0 ≤ chunk → 0 ≤ remainder →
  concat (visited <$> (range_of chunk remainder <$> seqZ 0 (Z.of_nat k)))
  = seqZ 0 (Z.of_nat k * chunk + min (Z.of_nat k) remainder).
Proof.
  intros Hc Hr. induction k as [|k IH].
  - rewrite seqZ_nil by lia. simpl. unfold min.
    change (Z.of_nat 0) with 0.
    destruct (Z.ltb_spec 0 remainder); rewrite seqZ_nil; done || lia.
  - rewrite seqZ_S, !fmap_app, concat_app, IH, Z.add_0_l. simpl.
    rewrite app_nil_r. unfold visited, range_of. simpl.
    set (a := Z.of_nat k * chunk + min (Z.of_nat k) remainder).
    set (c := if Z.of_nat k <? remainder then chunk + 1 else chunk).
    replace (a + c - a) with c by lia.
    assert (0 ≤ a ∧ 0 ≤ c) as [Ha Hcn].
    { unfold a, c, min.
      destruct (Z.ltb_spec (Z.of_nat k) remainder); nia. }
    change (seqZ a c) with (seqZ (0 + a) c).
    rewrite <- (seqZ_app 0 a c) by done. f_equal.
    unfold a, c, min.
    destruct (Z.ltb_spec (Z.of_nat k) remainder);
      destruct (Z.ltb_spec (Z.of_nat (S k)) remainder); lia.
Qed.

(** For [N >= 0] terms and at least one task the ranges tile [0, N): the
    values of [k] visited by the tasks, taken in task order, are exactly 0,
    1, ..., N - 1, each once; every range lies inside [0, N] and the
    ranges are contiguous. *)
Theorem ranges_tile (N numTasks : Z) :
  0 ≤ N → 1 ≤ numTasks →
  ∃ tasks : list Task,
    ranges N numTasks = Some tasks
    ∧ length tasks = Z.to_nat numTasks
    ∧ concat (visited <$> tasks) = seqZ 0 N
    ∧ Forall (fun t => 0 ≤ Start t ≤ End' t ∧ End' t ≤ N) tasks
    ∧ (∀ i t t', tasks !! i = Some t → tasks !! S i = Some t' →
                 End' t = Start t').
Proof.
  intros HN Hn.
  assert (Hq : Z.quot N numTasks = N `div` numTasks)
    by (apply Z.quot_div_nonneg; lia).
  assert (Hr : Z.rem N numTasks = N `mod` numTasks)
    by (apply Z.rem_mod_nonneg; lia).
  pose proof (Z.mod_pos_bound N numTasks ltac:(lia)) as Hmod.
  pose proof (Z.div_pos N numTasks HN ltac:(lia)) as Hdiv.
  pose proof (Z.div_mod N numTasks ltac:(lia)) as Hdm.
  unfold ranges.
  destruct (Z.ltb_spec numTasks 0); [lia|].
  destruct (Z.eqb_spec numTasks 0); [lia|].
  rewrite Hq, Hr. eexists. split; [done|]. split; [|split; [|split]].
  - by rewrite length_fmap, length_seqZ.
  - pose proof (ranges_prefix (N `div` numTasks) (N `mod` numTasks)
                  (Z.to_nat numTasks)) as Hp.
    rewrite Z2Nat.id in Hp by lia. rewrite Hp by lia. f_equal.
    unfold min. destruct (Z.ltb_spec numTasks (N `mod` numTasks)); lia.
  - apply Forall_fmap, Forall_seqZ. intros i Hi. simpl. unfold min.
    destruct (Z.ltb_spec i (N `mod` numTasks)); nia.
  - intros i t t' Ht Ht'.
    rewrite list_lookup_fmap in Ht, Ht'.
    destruct (seqZ 0 numTasks !! i) as [j|] eqn:Hj; [|done].
    destruct (seqZ 0 numTasks !! S i) as [j'|] eqn:Hj'; [|done].
    apply lookup_seqZ in Hj as [-> _]. apply lookup_seqZ in Hj' as [-> _].
    simpl in Ht, Ht'. injection Ht as <-. injection Ht' as <-. simpl.
    unfold min.
    destruct (Z.ltb_spec (0 + Z.of_nat i) (N `mod` numTasks));
      destruct (Z.ltb_spec (0 + Z.of_nat (S i)) (N `mod` numTasks)); lia.
Qed.

Lemma ranges_tile_witness :
  ∃ tasks : list Task,
    ranges 10 8 = Some tasks
    ∧ length tasks = Z.to_nat 8
    ∧ concat (visited <$> tasks) = seqZ 0 10
    ∧ Forall (fun t => 0 ≤ Start t ≤ End' t ∧ End' t ≤ 10) tasks
    ∧ (∀ i t t', tasks !! i = Some t → tasks !! S i = Some t' →
                 End' t = Start t').
Proof. apply (ranges_tile 10 8); lia. Defined.

(** *** The table holds the factorials *)






End Chudnovsky.

(* ===================================================================== *)
(** ** The compute server (pkg/serve): split, run, respond                *)
(* ===================================================================== *)

(** [ComputeServer] and the handler registered by [HandleCompute].  The
    handler calls [s.WorkerPool.Run(tasks, worker)], the draft executor of
    [Module Draft]; one call of the handler is one run of that executor,
    so the handler is a function of the decoded request and of the
    schedule of the run. *)
Module Serve.

Section Compute.

Context {Req Task R : Type}.

(** [type ComputeServer struct]: the worker count and the pool, which is
    its [NumWorkers] (the router carries no state of its own). *)
Record ComputeServer := mkServer { NumWorkers : Z; WorkerPool : Z }.

(** [type ComputeResponse struct { Result []R; Total int }] *)
Record ComputeResponse := mkResponse { Result : list R; Total : Z }.

(** [New(workers ...int)]:
<<
  numWorkers := runtime.NumCPU()
  if len(workers) > 0 && workers[0] > 0 { numWorkers = workers[0] }
  pool := workerpool.New[Task, R](numWorkers)
>> *)
Definition New (NumCPU : Z) (workers : list Z) : ComputeServer :=
  let numWorkers :=
    match workers with
    | w :: _ => if (0 <? w)%Z then w else NumCPU
    | [] => NumCPU
    end in
  mkServer numWorkers numWorkers.

(** What one call of the handler does. *)
Inductive Outcome :=
| InvalidJSON                      (* 400, "invalid JSON: ..." *)
| Panics                           (* the splitter or [wg.Add] panicked *)
| Responds (resp : ComputeResponse).

Variable splitter : Req → Z → option (list Task).   (* [None]: it panics *)
Variable worker : Task → R.
Variable getTotal : Req → Z.

(** The handler on a decoded body ([None]: the body does not decode) along
    the schedule [ls] of the pool's run; [None] when [ls] is no schedule
    of that run or [Run] has not returned at its end. *)
Definition handler (s : ComputeServer) (decoded : option Req)
    (ls : list Draft.Label) : option Outcome :=
  match decoded with
  | None => Some InvalidJSON
  | Some req =>
      match splitter req (NumWorkers s) with
      | None => Some Panics
      | Some tasks =>
          match Draft.Run_init (T:=Task) (R:=R) (WorkerPool s) with
          | None => Some Panics
          | Some s0 =>
              match Draft.run worker tasks ls s0 with
              | Some st =>
                  match Draft.returned st with
                  | Some partials =>
                      Some (Responds (mkResponse partials (getTotal req)))
                  | None => None
                  end
              | None => None
              end
          end
      end
  end.

(** *** Properties of the server *)

Lemma New_positive (NumCPU : Z) (workers : list Z) :
  (1 ≤ NumCPU)%Z →
  (1 ≤ NumWorkers (New NumCPU workers))%Z
  ∧ WorkerPool (New NumCPU workers) = NumWorkers (New NumCPU workers).
Proof.
  intros Hc. unfold New. split; [|done]. simpl.
  destruct workers as [|w ?]; [done|]. destruct (Z.ltb_spec 0 w); lia.
Qed.

(** The server takes the first argument as its worker count when that is
    positive, and the CPU count otherwise (no argument, or a zero or
    negative one; further arguments are ignored); with at least one CPU
    the worker count is at least one and the pool has the same count. *)
Theorem compute_server_workers (NumCPU : Z) (workers : list Z) :
  (1 ≤ NumCPU)%Z →
  let s := New NumCPU workers in
  (1 ≤ NumWorkers s)%Z
  ∧ WorkerPool s = NumWorkers s
  ∧ (∀ w rest, workers = w :: rest → (0 < w)%Z → NumWorkers s = w)
  ∧ (∀ w rest, workers = w :: rest → (w ≤ 0)%Z → NumWorkers s = NumCPU)
  ∧ (workers = [] → NumWorkers s = NumCPU).
Proof.
  intros Hc s. destruct (New_positive NumCPU workers Hc) as [H1 H2].
  split; [done|]. split; [done|]. unfold s, New. simpl.
  split; [|split].
  - intros w rest -> Hw. destruct (Z.ltb_spec 0 w); [done|lia].
  - intros w rest -> Hw. destruct (Z.ltb_spec 0 w); [lia|done].
  - by intros ->.
Qed.

Lemma handler_run (s : ComputeServer) (req : Req) (tasks : list Task)
    (ls : list Draft.Label) (out : Outcome) :
  (0 ≤ WorkerPool s)%Z →
  splitter req (NumWorkers s) = Some tasks →
  handler s (Some req) ls = Some out →
  ∃ st partials,
    Draft.exec worker tasks (WorkerPool s) ls = Some st
    ∧ Draft.returned st = Some partials
    ∧ out = Responds (mkResponse partials (getTotal req)).
Proof.
  intros Hpos Hsplit. unfold handler, Draft.exec. rewrite Hsplit.
  destruct (Draft.Run_init (WorkerPool s)) as [s0|] eqn:Hinit.
  - destruct (Draft.run worker tasks ls s0) as [st|] eqn:Hrun; [|done].
    destruct (Draft.returned st) as [partials|] eqn:Hret; [|done].
    intros [= <-]. by exists st, partials.
  - unfold Draft.Run_init in Hinit.
    destruct (Z.ltb_spec (WorkerPool s) 0); [lia|done].
Qed.

Lemma handler_can_respond (s : ComputeServer) (req : Req)
    (tasks : list Task) :
  (0 ≤ WorkerPool s)%Z →
  splitter req (NumWorkers s) = Some tasks →
  ∃ ls partials,
    handler s (Some req) ls
    = Some (Responds (mkResponse partials (getTotal req))).
Proof.
  intros Hpos Hsplit.
  assert (∃ s0, Draft.Run_init (T:=Task) (R:=R) (WorkerPool s) = Some s0)
    as [s0 Hinit].
  { unfold Draft.Run_init. destruct (Z.ltb_spec (WorkerPool s) 0); [lia|].
    by eexists. }
  assert (Draft.exec worker tasks (WorkerPool s) [] = Some s0) as Hex
    by (unfold Draft.exec; by rewrite Hinit).
  destruct (Draft.draft_can_return worker tasks (WorkerPool s)
              (Draft.fuel tasks s0) [] s0 (Nat.le_refl _) Hex)
    as (ls & st & Hrun & [partials Hret]).
  exists ls, partials. unfold handler.
  by rewrite Hsplit, Hinit, Hrun, Hret.
Qed.

(** A server made by [New] on a machine with at least one CPU, given a
    body that decodes and a splitter that returns [tasks]: whenever the
    handler responds, [Result] is a rearrangement of the worker's results
    on [tasks] (in task order when there is one worker) and [Total] is
    [getTotal] of the request; the handler never panics; and some schedule
    of the pool makes it respond. *)
Theorem compute_response (NumCPU : Z) (workers : list Z) (req : Req)
    (tasks : list Task) :
  (1 ≤ NumCPU)%Z →
  splitter req (NumWorkers (New NumCPU workers)) = Some tasks →
  let s := New NumCPU workers in
  (∀ ls out, handler s (Some req) ls = Some out →
     ∃ partials,
       out = Responds (mkResponse partials (getTotal req))
       ∧ partials ≡ₚ worker <$> tasks
       ∧ length partials = length tasks
       ∧ (NumWorkers s = 1%Z → partials = worker <$> tasks))
  ∧ (∃ ls partials,
       handler s (Some req) ls
       = Some (Responds (mkResponse partials (getTotal req)))).
Proof.
  intros Hc Hsplit s.
  destruct (New_positive NumCPU workers Hc) as [Hpos Hpool].
  fold s in Hpos, Hpool, Hsplit.
  split; [|apply (handler_can_respond s req tasks); [lia | done]].
  intros ls out Hout.
  destruct (handler_run s req tasks ls out) as (st & partials & Hex & Hret & ->);
    [lia | done | done |].
  pose proof (Draft.draft_exec_Inv _ _ _ _ _ Hex) as HI.
  destruct (Draft.draft_return worker tasks (WorkerPool s) st partials)
    as [Hperm Hone]; [lia | done | done |].
  exists partials. split; [done|]. split; [done|]. split.
  - by rewrite (Permutation_length Hperm), length_fmap.
  - intros H1. apply Hone. lia.
Qed.

End Compute.

(** The server of multi_node/main.go: the request is its [Total], the
    splitter is [Split.splitter] and [getTotal] returns [req.Total]. *)
Definition node_handler {R : Type} (worker : Split.Task → R)
    (s : ComputeServer) (decoded : option Z) (ls : list Draft.Label)
    : option (Outcome (R:=R)) :=
  handler Split.splitter worker (fun Total => Total) s decoded ls.

(** A node of multi_node/main.go asked for [Total >= 0] points: every
    response carries one partial result per worker, obtained from tasks
    whose counts sum to [Total], and echoes [Total]; and the node can
    respond. *)
Theorem node_response {R : Type} (worker : Split.Task → R)
    (NumCPU Total : Z) :
  (1 ≤ NumCPU)%Z → (0 ≤ Total)%Z →
  let s := New NumCPU [] in
  (∀ ls out, node_handler worker s (Some Total) ls = Some out →
     ∃ tasks partials,
       out = Responds (mkResponse partials Total)
       ∧ Split.total_count tasks = Total
       ∧ partials ≡ₚ worker <$> tasks
       ∧ length partials = Z.to_nat NumCPU)
  ∧ (∃ ls partials,
       node_handler worker s (Some Total) ls
       = Some (Responds (mkResponse partials Total))).
Proof.
  intros Hc Ht s.
  destruct (Split.splitter_sum Total NumCPU Ht Hc) as (tasks & Hs & Hlen & Hsum).
  split.
  - intros ls out Hout.
    destruct (handler_run Split.splitter worker (fun Total => Total)
                s Total tasks ls out) as (st & partials & Hex & Hret & ->);
      [simpl; lia | done | done |].
    pose proof (Draft.draft_exec_Inv _ _ _ _ _ Hex) as HI.
    destruct (Draft.draft_return worker tasks (WorkerPool s) st partials)
      as [Hperm _]; [simpl; lia | done | done |].
    exists tasks, partials. split; [done|]. split; [done|]. split; [done|].
    by rewrite (Permutation_length Hperm), length_fmap.
  - apply (handler_can_respond Split.splitter worker (fun Total => Total)
             s Total tasks); [simpl; lia | done].
Qed.

Lemma compute_server_workers_witness :
  NumWorkers (New 8 [3%Z; 5%Z]) = 3%Z
  ∧ NumWorkers (New 8 [(-2)%Z]) = 8%Z
  ∧ WorkerPool (New 8 []) = NumWorkers (New 8 []).
Proof.
  split; [|split].
  - destruct (compute_server_workers 8 [3%Z; 5%Z]) as (_ & _ & Hw & _);
      [lia|]. apply (Hw 3%Z [5%Z] eq_refl). lia.
  - destruct (compute_server_workers 8 [(-2)%Z]) as (_ & _ & _ & Hw & _);
      [lia|]. apply (Hw (-2)%Z [] eq_refl). lia.
  - destruct (compute_server_workers 8 []) as (_ & Hp & _); [lia|]. exact Hp.
Defined.

(** One worker serving the single task of a request. *)
Definition one_task : list Draft.Label :=
  [Draft.Feed 0; Draft.WorkerCall 0; Draft.Collect 0; Draft.FeedClose;
   Draft.WorkerClosed 0; Draft.CloseResults; Draft.Return].

Lemma compute_response_witness :
  handler Split.splitter Split.Count (fun Total : Z => Total)
          (New 2 [1%Z]) (Some 5%Z) one_task
  = Some (Responds (mkResponse [5%Z] 5%Z))
  ∧ ∃ partials,
      Some (Responds (mkResponse [5%Z] 5%Z))
      = Some (Responds (mkResponse partials 5%Z))
      ∧ partials = Split.Count <$> [Split.mkTask 5].
Proof.
  split; [vm_compute; reflexivity|].
  destruct (compute_response Split.splitter Split.Count (fun Total : Z => Total)
              2 [1%Z] 5%Z [Split.mkTask 5]) as [Hall _];
    [lia | vm_compute; reflexivity |].
  destruct (Hall one_task (Responds (mkResponse [5%Z] 5%Z)) eq_refl)
    as (partials & Heq & _ & _ & Hone).
  exists partials. split; [by rewrite Heq | by apply Hone].
Defined.

(** Two workers: the second task is served first. *)
Definition two_tasks : list Draft.Label :=
  [Draft.Feed 1; Draft.Feed 0; Draft.WorkerCall 0; Draft.Collect 0;
   Draft.WorkerCall 1; Draft.Collect 1; Draft.FeedClose;
   Draft.WorkerClosed 0; Draft.WorkerClosed 1; Draft.CloseResults;
   Draft.Return].

Lemma node_response_witness :
  node_handler Split.Count (New 2 []) (Some 5%Z) two_tasks
  = Some (Responds (mkResponse [2%Z; 3%Z] 5%Z))
  ∧ ∃ tasks partials,
      Some (Responds (mkResponse [2%Z; 3%Z] 5%Z))
      = Some (Responds (mkResponse partials 5%Z))
      ∧ Split.total_count tasks = 5%Z
      ∧ partials ≡ₚ Split.Count <$> tasks.
Proof.
  split; [vm_compute; reflexivity|].
  destruct (node_response Split.Count 2 5) as [Hall _]; [lia | lia |].
  destruct (Hall two_tasks (Responds (mkResponse [2%Z; 3%Z] 5%Z)) eq_refl)
    as (tasks & partials & Heq & Hsum & Hperm & _).
  exists tasks, partials. split; [by rewrite Heq | done].
Defined.

End Serve.

(* ===================================================================== *)
(** ** The job registry (pkg/serve/job.go)                                *)
(* ===================================================================== *)

(** The handlers of [createJobRoute] over the slice [*jobs], one request at
    a time.  A request body is taken after JSON decoding and the [{id}] URL
    parameter after [strconv.Atoi]; a response is its status code and what
    is written to the body. *)
Module Registry.

Local Open Scope Z_scope.

(** [type Resources struct { Cpu string; Memory string }] *)
Record Resources := mkResources { Cpu : string; Memory : string }.

(** [type JobStatus string] and its constants. *)
Definition JobStatus := string.
Definition StatusPending : JobStatus := "pending"%string.
Definition StatusRunning : JobStatus := "running"%string.
Definition StatusCompleted : JobStatus := "completed"%string.
Definition StatusFailed : JobStatus := "failed"%string.

(** [type Job struct]; a Go map is [None] when nil. *)
Record Job := mkJob {
  ID : Z;
  Status : JobStatus;
  JobResources : Resources;     (* field [Resources] *)
  Input : option (gmap string string);
  Output : option (gmap string string)
}.

(** [NewJob]: the job, or the error message. *)
Definition NewJob (id : Z) (res : Resources)
    (inp : option (gmap string string)) : Job + string :=
  if id <=? 0 then inr "id must be > 0"%string
  else if String.eqb (Cpu res) EmptyString || String.eqb (Memory res) EmptyString
  then inr "resources.cpu and resources.memory are required"%string
  else inl {| ID := id; JobResources := res; Status := StatusPending;
              Input := inp; Output := Some ∅ |}.

(** What a handler writes. *)
Inductive Body :=
| BodyJobs (jobs : list Job)             (* the JSON list of jobs *)
| BodyJob (job : Job)                    (* one job as JSON *)
| BodyConflict (job_id : Z)              (* [{"error": ..., "job_id": ...}] *)
| BodyInvalidJSON                        (* "invalid JSON or schema mismatch" *)
| BodyValidation (msg : string)          (* "validation error: " + msg *)
| BodyInvalidID                          (* "invalid job ID" *)
| BodyNotFound (id : Z)                  (* "job not found with ID" *)
| BodyEmpty.                             (* nothing written *)

Record Response := mkResponse { code : Z; body : Body }.

Definition StatusOK : Z := 200.
Definition StatusBadRequest : Z := 400.
Definition StatusNotFound : Z := 404.
Definition StatusConflict : Z := 409.

(** [jobExists]: the loop sets [exists] on every job with the new ID and
    does not stop early; on a hit the conflict response is written (also
    when the JSON encoder fails, through [http.Error] with the same status).
    The result is the flag and what was written. *)
Definition jobExists (newJob : Job) (jobs : list Job) : bool * option Response :=
  let exists_ :=
    foldl (fun ex job => if ID newJob =? ID job then true else ex) false jobs in
  (exists_,
   if exists_ then Some (mkResponse StatusConflict (BodyConflict (ID newJob)))
   else None).

(** [type jobRequest struct] of the POST handler. *)
Record jobRequest := mkRequest {
  req_ID : Z;
  req_Resources : Resources;
  req_Input : option (gmap string string)
}.

(** GET /jobs *)
Definition getJobs (jobs : list Job) : Response * list Job :=
  (mkResponse StatusOK (BodyJobs jobs), jobs).

(** GET /jobs/{id}: the first job with that ID. *)
Fixpoint findJob (id : Z) (jobs : list Job) : option Job :=
  match jobs with
  | [] => None
  | job :: rest => if ID job =? id then Some job else findJob id rest
  end.

Definition getJob (idParam : option Z) (jobs : list Job) : Response * list Job :=
  match idParam with
  | None => (mkResponse StatusBadRequest BodyInvalidID, jobs)
  | Some id =>
      match findJob id jobs with
      | Some job => (mkResponse StatusOK (BodyJob job), jobs)
      | None => (mkResponse StatusNotFound (BodyNotFound id), jobs)
      end
  end.

(** POST /jobs; [None] is a body that does not decode. *)
Definition postJob (decoded : option jobRequest) (jobs : list Job)
    : Response * list Job :=
  match decoded with
  | None => (mkResponse StatusBadRequest BodyInvalidJSON, jobs)
  | Some jr =>
      match NewJob (req_ID jr) (req_Resources jr) (req_Input jr) with
      | inr err => (mkResponse StatusBadRequest (BodyValidation err), jobs)
      | inl newJob =>
          match jobExists newJob jobs with
          | (true, Some resp) => (resp, jobs)
          | (true, None) => (mkResponse StatusOK BodyEmpty, jobs)
          | (false, _) =>
              (mkResponse StatusOK (BodyJob newJob), jobs ++ [newJob])
          end
      end
  end.

Inductive Request :=
| GetJobs
| GetJob (idParam : option Z)
| PostJob (decoded : option jobRequest).

Definition handle (r : Request) (jobs : list Job) : Response * list Job :=
  match r with
  | GetJobs => getJobs jobs
  | GetJob idParam => getJob idParam jobs
  | PostJob decoded => postJob decoded jobs
  end.

(** The registry after a sequence of requests, from [make([]Job, 0)]. *)
Definition serve (rs : list Request) : list Job :=
  foldl (fun jobs r => (handle r jobs).2) [] rs.



(** *** Properties of the registry *)

Lemma jobExists_loop (id : Z) (jobs : list Job) (b : bool) :
  foldl (fun ex job => if id =? ID job then true else ex) b jobs = true
  ↔ b = true ∨ id ∈ ID <$> jobs.
Proof.
  revert b. induction jobs as [|j jobs IH]; intros b; simpl.
  - rewrite elem_of_nil. tauto.
  - rewrite IH, elem_of_cons. destruct (Z.eqb_spec id (ID j)); tauto.
Qed.

Lemma jobExists_true (newJob : Job) (jobs : list Job) :
  ID newJob ∈ ID <$> jobs →
  jobExists newJob jobs
  = (true, Some (mkResponse StatusConflict (BodyConflict (ID newJob)))).
Proof.
  intros Hin. unfold jobExists.
  assert (foldl (fun ex job => if ID newJob =? ID job then true else ex)
                false jobs = true) as ->; [|done].
  apply jobExists_loop. by right.
Qed.

Lemma jobExists_false (newJob : Job) (jobs : list Job) :
  ID newJob ∉ ID <$> jobs → jobExists newJob jobs = (false, None).
Proof.
  intros Hin. unfold jobExists.
  destruct (foldl _ false jobs) eqn:E; [|done].
  apply jobExists_loop in E as [?|?]; done.
Qed.

Lemma String_eqb_empty (x : string) :
  String.eqb x EmptyString = true ↔ x = EmptyString.
Proof. apply String.eqb_eq. Qed.

Lemma NewJob_valid (id : Z) (res : Resources) (inp : option (gmap string string)) :
  0 < id → Cpu res ≠ EmptyString → Memory res ≠ EmptyString →
  NewJob id res inp
  = inl {| ID := id; JobResources := res; Status := StatusPending;
           Input := inp; Output := Some ∅ |}.
Proof.
  intros Hid Hc Hm. unfold NewJob.
  destruct (Z.leb_spec id 0); [lia|].
  destruct (String.eqb (Cpu res) EmptyString) eqn:E1;
    [by apply String_eqb_empty in E1|].
  destruct (String.eqb (Memory res) EmptyString) eqn:E2;
    [by apply String_eqb_empty in E2|].
  done.
Qed.

Lemma NewJob_invalid (id : Z) (res : Resources) (inp : option (gmap string string)) :
  ¬ (0 < id ∧ Cpu res ≠ EmptyString ∧ Memory res ≠ EmptyString) →
  ∃ err, NewJob id res inp = inr err.
Proof.
  intros Hn. unfold NewJob.
  destruct (Z.leb_spec id 0); [by eexists|].
  destruct (String.eqb (Cpu res) EmptyString) eqn:E1; [by eexists|].
  destruct (String.eqb (Memory res) EmptyString) eqn:E2; [by eexists|].
  exfalso. apply Hn. split; [done|].
  split; intros Heq%String_eqb_empty; congruence.
Qed.




(** C7 (as the code has it).  A create request that passes validation
    (positive ID, non-empty cpu and memory) is answered 409 and leaves the
    jobs unchanged when a stored job has its ID, and otherwise appends
    exactly the new pending job and answers with it; a request that fails
    validation is answered 400 and leaves the jobs unchanged, whether or not
    its ID is stored. *)
Theorem create_job (jr : jobRequest) (jobs : list Job) :
  let valid := 0 < req_ID jr ∧ Cpu (req_Resources jr) ≠ EmptyString
               ∧ Memory (req_Resources jr) ≠ EmptyString in
  let newJob := {| ID := req_ID jr; JobResources := req_Resources jr;
                   Status := StatusPending; Input := req_Input jr;
                   Output := Some ∅ |} in
  (valid → req_ID jr ∈ ID <$> jobs →
     postJob (Some jr) jobs
     = (mkResponse StatusConflict (BodyConflict (req_ID jr)), jobs))
  ∧ (valid → req_ID jr ∉ ID <$> jobs →
       postJob (Some jr) jobs
       = (mkResponse StatusOK (BodyJob newJob), jobs ++ [newJob]))
  ∧ (¬ valid →
       code (postJob (Some jr) jobs).1 = StatusBadRequest
       ∧ (postJob (Some jr) jobs).2 = jobs).
Proof.
  intros valid newJob. unfold postJob. split; [|split].
  - intros (Hid & Hc & Hm) Hin. rewrite NewJob_valid by done.
    by rewrite jobExists_true.
  - intros (Hid & Hc & Hm) Hin. rewrite NewJob_valid by done.
    by rewrite jobExists_false.
  - intros Hn. destruct (NewJob_invalid _ _ (req_Input jr) Hn) as [err ->].
    done.
Qed.

(** A stored job with ID 1, as created by a valid request. *)
Definition job_one : Job :=
  {| ID := 1; JobResources := mkResources "2" "4Gi"; Status := StatusPending;
     Input := None; Output := Some ∅ |}.

Lemma create_job_witness :
  postJob (Some (mkRequest 1 (mkResources "2" "4Gi") None)) [job_one]
  = (mkResponse StatusConflict (BodyConflict 1), [job_one])
  ∧ postJob (Some (mkRequest 2 (mkResources "1" "1Gi") None)) [job_one]
    = (mkResponse StatusOK
         (BodyJob {| ID := 2; JobResources := mkResources "1" "1Gi";
                     Status := StatusPending; Input := None;
                     Output := Some ∅ |}),
       [job_one;
        {| ID := 2; JobResources := mkResources "1" "1Gi";
           Status := StatusPending; Input := None; Output := Some ∅ |}]).
Proof.
  split.
  - apply (create_job (mkRequest 1 (mkResources "2" "4Gi") None) [job_one]).
    + simpl. split; [lia | split; discriminate].
    + simpl. apply elem_of_cons. by left.
  - apply (create_job (mkRequest 2 (mkResources "1" "1Gi") None) [job_one]).
    + simpl. split; [lia | split; discriminate].
    + simpl. intros [Heq|[]%elem_of_nil]%elem_of_cons. discriminate.
Defined.

(** With empty resources, a request with the stored ID 1 is answered 400,
    not 409, and a request with the fresh positive ID 2 appends nothing. *)
Lemma create_invalid_resources :
  serve [PostJob (Some (mkRequest 1 (mkResources "2" "4Gi") None))] = [job_one]
  ∧ code (postJob (Some (mkRequest 1 (mkResources EmptyString EmptyString) None))
                  [job_one]).1 = StatusBadRequest
  ∧ postJob (Some (mkRequest 2 (mkResources EmptyString EmptyString) None))
            [job_one]
    = (mkResponse StatusBadRequest
         (BodyValidation "resources.cpu and resources.memory are required"),
       [job_one]).
Proof. repeat split. Qed.


(** *** Lookups, growth and round trips *)

(** The registry after the requests [rs], from the stored [jobs]. *)
Definition serve_from (jobs : list Job) (rs : list Request) : list Job :=
  foldl (fun jobs r => (handle r jobs).2) jobs rs.

(** The job a create request stores when it passes validation. *)
Definition pending_job (jr : jobRequest) : Job :=
  {| ID := req_ID jr; JobResources := req_Resources jr;
     Status := StatusPending; Input := req_Input jr; Output := Some ∅ |}.

Definition valid_request (jr : jobRequest) : Prop :=
  0 < req_ID jr ∧ Cpu (req_Resources jr) ≠ EmptyString
  ∧ Memory (req_Resources jr) ≠ EmptyString.

Lemma findJob_None (id : Z) (jobs : list Job) :
  findJob id jobs = None ↔ id ∉ ID <$> jobs.
Proof.
  induction jobs as [|j jobs IH]; simpl.
  - split; [intros _ []%elem_of_nil | done].
  - rewrite not_elem_of_cons. destruct (Z.eqb_spec (ID j) id) as [->|Hne].
    + split; [done | intros [? _]; done].
    + rewrite IH. split; [intros ?; split; [congruence | done] | tauto].
Qed.

Lemma findJob_Some (id : Z) (jobs : list Job) (j : Job) :
  findJob id jobs = Some j → j ∈ jobs ∧ ID j = id.
Proof.
  induction jobs as [|j' jobs IH]; simpl; [done|].
  destruct (Z.eqb_spec (ID j') id) as [Heq|Hne].
  - intros [= <-]. split; [apply elem_of_cons; by left | done].
  - intros [Hin Hid]%IH. split; [apply elem_of_cons; by right | done].
Qed.

Lemma findJob_unique (id : Z) (jobs : list Job) (j : Job) :
  NoDup (ID <$> jobs) → j ∈ jobs → ID j = id → findJob id jobs = Some j.
Proof.
  induction jobs as [|j' jobs IH]; simpl; intros Hnd Hin Hid.
  - by apply elem_of_nil in Hin.
  - apply NoDup_cons in Hnd as [Hfresh Hnd].
    apply elem_of_cons in Hin as [->|Hin].
    + destruct (Z.eqb_spec (ID j') id); done.
    + destruct (Z.eqb_spec (ID j') id) as [Heq|Hne]; [|by apply IH].
      exfalso. apply Hfresh. rewrite Heq, <- Hid.
      by apply list_elem_of_fmap_2.
Qed.

Lemma findJob_app_l (id : Z) (jobs more : list Job) (j : Job) :
  findJob id jobs = Some j → findJob id (jobs ++ more) = Some j.
Proof.
  induction jobs as [|j' jobs IH]; simpl; [done|].
  by destruct (ID j' =? id).
Qed.

Lemma findJob_app_r (id : Z) (jobs more : list Job) :
  findJob id jobs = None → findJob id (jobs ++ more) = findJob id more.
Proof.
  induction jobs as [|j' jobs IH]; simpl; [done|].
  by destruct (ID j' =? id).
Qed.

Lemma handle_change (r : Request) (jobs : list Job) :
  handle r jobs = ((handle r jobs).1, jobs)
  ∨ ∃ jr, r = PostJob (Some jr)
          ∧ valid_request jr
          ∧ (req_ID jr ∉ ID <$> jobs)
          ∧ handle r jobs
            = (mkResponse StatusOK (BodyJob (pending_job jr)),
               jobs ++ [pending_job jr]).
Proof.
  destruct r as [|idParam|[jr|]]; unfold handle; try (by left).
  - left. unfold getJob. destruct idParam as [id|]; [|done].
    by destruct (findJob id jobs).
  - unfold postJob.
    destruct (decide (valid_request jr)) as [(Hid & Hc & Hm)|Hn].
    + rewrite NewJob_valid by done.
      destruct (decide (req_ID jr ∈ ID <$> jobs)) as [Hin|Hin].
      * left. by rewrite jobExists_true.
      * right. exists jr. by rewrite jobExists_false.
    + left. by destruct (NewJob_invalid _ _ (req_Input jr) Hn) as [err ->].
Qed.

Lemma handle_prefix (r : Request) (jobs : list Job) :
  jobs `prefix_of` (handle r jobs).2.
Proof.
  destruct (handle_change r jobs) as [->|(jr & _ & _ & _ & ->)]; simpl.
  - done.
  - by apply prefix_app_r.
Qed.

Lemma serve_from_prefix (rs : list Request) (jobs : list Job) :
  jobs `prefix_of` serve_from jobs rs.
Proof.
  revert jobs. induction rs as [|r rs IH]; intros jobs; simpl; [done|].
  trans (handle r jobs).2; [apply handle_prefix | apply IH].
Qed.

Lemma getJob_found (id : Z) (jobs : list Job) (j : Job) :
  findJob id jobs = Some j →
  getJob (Some id) jobs = (mkResponse StatusOK (BodyJob j), jobs).
Proof. intros Hf. unfold getJob. by rewrite Hf. Qed.

(** GET /jobs/{id} never changes the registry; it answers 404 exactly when
    no stored job has the ID; and when the stored IDs are pairwise distinct
    it answers 200 with the stored job of that ID. *)
Theorem get_job_lookup (id : Z) (jobs : list Job) :
  (getJob (Some id) jobs).2 = jobs
  ∧ (id ∉ ID <$> jobs
     ↔ getJob (Some id) jobs
       = (mkResponse StatusNotFound (BodyNotFound id), jobs))
  ∧ (∀ j, NoDup (ID <$> jobs) → j ∈ jobs → ID j = id →
          getJob (Some id) jobs = (mkResponse StatusOK (BodyJob j), jobs)).
Proof.
  split; [|split].
  - unfold getJob. by destruct (findJob id jobs).
  - rewrite <- findJob_None. unfold getJob.
    destruct (findJob id jobs); split; done.
  - intros j Hnd Hin Hid. by apply getJob_found, findJob_unique.
Qed.

Lemma get_job_lookup_witness :
  getJob (Some 7) [job_one]
  = (mkResponse StatusNotFound (BodyNotFound 7), [job_one])
  ∧ getJob (Some 1) [job_one] = (mkResponse StatusOK (BodyJob job_one), [job_one]).
Proof.
  split.
  - apply (get_job_lookup 7 [job_one]). simpl.
    intros [Heq|[]%elem_of_nil]%elem_of_cons. discriminate.
  - apply (get_job_lookup 1 [job_one]).
    + simpl. apply NoDup_singleton.
    + apply elem_of_cons. by left.
    + reflexivity.
Defined.

(** Every request is answered 200, 400, 404 or 409.  The registry changes
    only on a create request that passes validation with an ID that is not
    stored: it is then answered 200 and exactly the new pending job is
    appended.  Every other request, and every answer other than 200, leaves
    the registry as it was. *)
Theorem handle_effect (r : Request) (jobs : list Job) :
  code (handle r jobs).1 ∈ [StatusOK; StatusBadRequest; StatusNotFound;
                            StatusConflict]
  ∧ ((handle r jobs).2 = jobs
     ∨ ∃ jr, r = PostJob (Some jr)
             ∧ valid_request jr
             ∧ (req_ID jr ∉ ID <$> jobs)
             ∧ handle r jobs
               = (mkResponse StatusOK (BodyJob (pending_job jr)),
                  jobs ++ [pending_job jr]))
  ∧ (code (handle r jobs).1 ≠ StatusOK → (handle r jobs).2 = jobs).
Proof.
  split; [|split].
  - destruct r as [|idParam|[jr|]]; unfold handle.
    + simpl. set_solver.
    + unfold getJob. destruct idParam as [id|]; [|simpl; set_solver].
      destruct (findJob id jobs); simpl; set_solver.
    + unfold postJob.
      destruct (NewJob _ _ _) as [newJob|err]; [|simpl; set_solver].
      unfold jobExists. destruct (foldl _ false jobs); simpl; set_solver.
    + simpl. set_solver.
  - destruct (handle_change r jobs) as [->|H]; [by left | by right].
  - destruct (handle_change r jobs) as [->|(jr & _ & _ & _ & ->)]; [done|].
    simpl. done.
Qed.

(** The registry only grows, at its end: after any requests the earlier
    registry is a prefix of the later one, so a job that GET /jobs/{id}
    returned once is returned for that ID after every later sequence of
    requests. *)
Theorem stored_job_stays (id : Z) (j : Job) (jobs : list Job)
    (rs : list Request) :
  getJob (Some id) jobs = (mkResponse StatusOK (BodyJob j), jobs) →
  jobs `prefix_of` serve_from jobs rs
  ∧ getJob (Some id) (serve_from jobs rs)
    = (mkResponse StatusOK (BodyJob j), serve_from jobs rs).
Proof.
  intros Hget. split; [apply serve_from_prefix|].
  assert (findJob id jobs = Some j) as Hf.
  { unfold getJob in Hget. destruct (findJob id jobs); by simplify_eq. }
  destruct (serve_from_prefix rs jobs) as [more ->].
  by apply getJob_found, findJob_app_l.
Qed.

Lemma stored_job_stays_witness :
  getJob (Some 1)
         (serve_from [job_one]
            [PostJob (Some (mkRequest 2 (mkResources "1" "1Gi") None));
             PostJob (Some (mkRequest 1 (mkResources "8" "8Gi") None))])
  = (mkResponse StatusOK (BodyJob job_one),
     serve_from [job_one]
       [PostJob (Some (mkRequest 2 (mkResources "1" "1Gi") None));
        PostJob (Some (mkRequest 1 (mkResources "8" "8Gi") None))]).
Proof.
  apply (stored_job_stays 1 job_one [job_one]). reflexivity.
Defined.

(** Round trip: after a create request that passes validation with an ID
    that is not stored, and after any further requests, GET /jobs/{id}
    with that ID returns the pending job built from the request, and the
    same create request is answered 409 and changes nothing. *)
Theorem create_then_get (jr : jobRequest) (jobs : list Job)
    (rs : list Request) :
  valid_request jr → req_ID jr ∉ ID <$> jobs →
  let later := serve_from (postJob (Some jr) jobs).2 rs in
  getJob (Some (req_ID jr)) later
  = (mkResponse StatusOK (BodyJob (pending_job jr)), later)
  ∧ postJob (Some jr) later
    = (mkResponse StatusConflict (BodyConflict (req_ID jr)), later).
Proof.
  intros Hv Hfresh later.
  assert (findJob (req_ID jr) later = Some (pending_job jr)) as Hf.
  { assert ((postJob (Some jr) jobs).2 = jobs ++ [pending_job jr]) as Hpost.
    { unfold postJob. destruct Hv as (Hid & Hc & Hm).
      rewrite NewJob_valid by done. by rewrite jobExists_false. }
    unfold later. rewrite Hpost.
    destruct (serve_from_prefix rs (jobs ++ [pending_job jr])) as [more ->].
    apply findJob_app_l. rewrite findJob_app_r by by apply findJob_None.
    simpl. by rewrite Z.eqb_refl. }
  split; [by apply getJob_found|].
  unfold postJob. destruct Hv as (Hid & Hc & Hm).
  rewrite NewJob_valid by done. rewrite jobExists_true; [done|]. simpl.
  apply findJob_Some in Hf as [Hin _].
  by apply (list_elem_of_fmap_2 ID) in Hin.
Qed.

Lemma create_then_get_witness :
  let jr := mkRequest 2 (mkResources "1" "1Gi") None in
  let later := serve_from (postJob (Some jr) [job_one]).2
                 [GetJobs; PostJob (Some (mkRequest 3 (mkResources "2" "2Gi") None))] in
  getJob (Some 2) later = (mkResponse StatusOK (BodyJob (pending_job jr)), later)
  ∧ postJob (Some jr) later
    = (mkResponse StatusConflict (BodyConflict 2), later).
Proof.
  apply (create_then_get (mkRequest 2 (mkResources "1" "1Gi") None) [job_one]).
  - unfold valid_request. simpl. split; [lia | split; discriminate].
  - simpl. intros [Heq|[]%elem_of_nil]%elem_of_cons. discriminate.
Defined.

Lemma serve_from_creates (jrs : list jobRequest) (jobs : list Job) :
  Forall valid_request jrs →
  NoDup ((ID <$> jobs) ++ (req_ID <$> jrs)) →
  serve_from jobs ((fun jr => PostJob (Some jr)) <$> jrs)
  = jobs ++ (pending_job <$> jrs).
Proof.
  revert jobs. induction jrs as [|jr jrs IH]; intros jobs Hv Hnd.
  - simpl. by rewrite app_nil_r.
  - apply Forall_cons in Hv as [(Hid & Hc & Hm) Hv].
    assert ((handle (PostJob (Some jr)) jobs).2 = jobs ++ [pending_job jr])
      as Hpost.
    { unfold handle, postJob. rewrite NewJob_valid by done.
      rewrite jobExists_false; [done|]. simpl.
      apply NoDup_app in Hnd as (_ & Hdis & _).
      intros Hin. apply (Hdis _ Hin). apply elem_of_cons. by left. }
    rewrite fmap_cons.
    change (serve_from jobs (PostJob (Some jr)
                             :: ((fun jr => PostJob (Some jr)) <$> jrs)))
      with (serve_from (handle (PostJob (Some jr)) jobs).2
                       ((fun jr => PostJob (Some jr)) <$> jrs)).
    rewrite Hpost, IH; [by rewrite <- app_assoc | done |].
    rewrite fmap_app, <- app_assoc. done.
Qed.

(** Create requests that all pass validation and carry pairwise distinct
    IDs, served from the empty registry, store exactly their pending jobs
    in request order, and that is the list GET /jobs then returns. *)
Theorem serve_creates (jrs : list jobRequest) :
  Forall valid_request jrs → NoDup (req_ID <$> jrs) →
  serve ((fun jr => PostJob (Some jr)) <$> jrs) = pending_job <$> jrs
  ∧ getJobs (serve ((fun jr => PostJob (Some jr)) <$> jrs))
    = (mkResponse StatusOK (BodyJobs (pending_job <$> jrs)),
       pending_job <$> jrs).
Proof.
  intros Hv Hnd.
  assert (serve ((fun jr => PostJob (Some jr)) <$> jrs) = pending_job <$> jrs)
    as ->; [|done].
  change (serve ((fun jr => PostJob (Some jr)) <$> jrs))
    with (serve_from [] ((fun jr => PostJob (Some jr)) <$> jrs)).
  by rewrite serve_from_creates.
Qed.

Lemma serve_creates_witness :
  serve [PostJob (Some (mkRequest 5 (mkResources "1" "1Gi") None));
         PostJob (Some (mkRequest 3 (mkResources "2" "2Gi") None))]
  = [pending_job (mkRequest 5 (mkResources "1" "1Gi") None);
     pending_job (mkRequest 3 (mkResources "2" "2Gi") None)].
Proof.
  apply (serve_creates [mkRequest 5 (mkResources "1" "1Gi") None;
                        mkRequest 3 (mkResources "2" "2Gi") None]).
  - repeat constructor; simpl; (lia || discriminate).
  - simpl. apply NoDup_cons. split; [|apply NoDup_singleton].
    intros [Heq|[]%elem_of_nil]%elem_of_cons. discriminate.
Defined.

End Registry.
